(** * flight-dispatcher: the document reconciliation engine (merger.ts)

    A shallow embedding of the merger module: [parseSections],
    [extractPreservedData], [merge] and [updateTimestamp], together with the
    part of the ECMAScript string and regular-expression semantics these
    functions rely on.

    JavaScript strings are sequences of UTF-16 code units; they are modelled
    as lists of code units ([N]).  The regular expressions of the module are
    run by a small backtracking matcher that follows the ECMAScript
    semantics (greedy and lazy quantifiers, backtracking, leftmost match) on
    the fragment the module uses. *)

From Stdlib Require Import NArith Ascii String.
From stdpp Require Import base option list strings gmap.

Open Scope N_scope.
Open Scope nat_scope.

(** ** Strings as lists of UTF-16 code units *)

Abbreviation char := N (only parsing).
Abbreviation jstring := (list N) (only parsing).

(** An ASCII literal as a JavaScript string. *)
Definition u16 (s : string) : jstring :=
  N_of_ascii <$> list_ascii_of_string s.

Definition LF : char := 10%N.
Definition CR : char := 13%N.
Definition HASH : char := 35%N.
Definition DOLLAR : char := 36%N.

(** ECMAScript LineTerminator: LF, CR, U+2028, U+2029. *)
Definition is_line_terminator (c : char) : bool :=
  (c =? 10)%N || (c =? 13)%N || (c =? 8232)%N || (c =? 8233)%N.

(** ECMAScript WhiteSpace or LineTerminator: the set stripped by
    [String.prototype.trim] and matched by the class escape [\s]. *)
Definition is_ws (c : char) : bool :=
  (c =? 9)%N || (c =? 11)%N || (c =? 12)%N || (c =? 32)%N || (c =? 160)%N
  || (c =? 5760)%N || ((8192 <=? c)%N && (c <=? 8202)%N)
  || (c =? 8239)%N || (c =? 8287)%N || (c =? 12288)%N || (c =? 65279)%N
  || is_line_terminator c.

(** The atom [.] (no [s] flag): any code unit but a line terminator. *)
Definition is_dot (c : char) : bool := negb (is_line_terminator c).

Definition is_hash (c : char) : bool := (c =? HASH)%N.

(** [String.prototype.trimStart], [trimEnd], [trim]. *)
Fixpoint trimStart (s : jstring) : jstring :=
  match s with
  | c :: s' => if is_ws c then trimStart s' else s
  | [] => []
  end.

Definition trimEnd (s : jstring) : jstring := reverse (trimStart (reverse s)).

Definition trim (s : jstring) : jstring := trimEnd (trimStart s).

(** [s.split('\n')]: never empty, [''.split('\n')] is [['']]. *)
Fixpoint split_nl (s : jstring) : list jstring :=
  match s with
  | [] => [[]]
  | c :: s' =>
      if (c =? LF)%N then [] :: split_nl s'
      else match split_nl s' with
           | l :: ls => (c :: l) :: ls
           | [] => [[c]]
           end
  end.

(** [Array.prototype.join]. *)
Fixpoint join (sep : jstring) (ls : list jstring) : jstring :=
  match ls with
  | [] => []
  | [l] => l
  | l :: ls' => l ++ sep ++ join sep ls'
  end.

(** [s.startsWith(p)]. *)
Fixpoint startsWith (p s : jstring) : bool :=
  match p, s with
  | [], _ => true
  | a :: p', b :: s' => (a =? b)%N && startsWith p' s'
  | _ :: _, [] => false
  end.

(** Truthiness of a string: non-empty. *)
Definition truthy (s : jstring) : bool :=
  match s with [] => false | _ => true end.

(** ** The regular-expression fragment used by the module

    Quantifiers only ever apply to a single character class in this module
    ([#{1,6}], [\s+], [\s*], [.+], [.+?]), capture groups are neither nested
    nor quantified, and no flag is set: [^] and [$] are the start and the end
    of the input. *)

Inductive regex : Type :=
| RLit (l : jstring)
| RClass (p : char → bool)
| RQuant (p : char → bool) (lo : nat) (hi : option nat) (greedy : bool)
| RGroup (r : regex)
| RSeq (r1 r2 : regex)
| RBol
| REol.

Definition more_allowed (hi : option nat) : bool :=
  match hi with Some 0 => false | _ => true end.

(** A quantified class [p{lo,hi}] (greedy) or [p{lo,hi}?] (lazy), followed by
    the continuation [k].  The greedy form first tries to take one more
    character and falls back to the continuation; the lazy form tries the
    continuation first. *)
Fixpoint quant {A} (p : char → bool) (greedy : bool) (lo : nat)
    (hi : option nat) (i : nat) (s : jstring)
    (k : nat → jstring → option A) : option A :=
  match s with
  | c :: s' =>
      match lo with
      | S lo' =>
          if p c && more_allowed hi
          then quant p greedy lo' (pred <$> hi) (S i) s' k
          else None
      | 0 =>
          if p c && more_allowed hi then
            if greedy then
              match quant p greedy 0 (pred <$> hi) (S i) s' k with
              | Some a => Some a
              | None => k i s
              end
            else
              match k i s with
              | Some a => Some a
              | None => quant p greedy 0 (pred <$> hi) (S i) s' k
              end
          else k i s
      end
  | [] => match lo with 0 => k i [] | S _ => None end
  end.

(** The matcher, in continuation-passing style: [i] is the current index,
    [s] the rest of the input, [caps] the captures closed so far (in the
    order of the groups). *)
Fixpoint rmatch {A} (r : regex) (i : nat) (s : jstring) (caps : list jstring)
    (k : nat → jstring → list jstring → option A) : option A :=
  match r with
  | RLit l => if startsWith l s then k (i + length l) (drop (length l) s) caps
              else None
  | RClass p =>
      match s with
      | c :: s' => if p c then k (S i) s' caps else None
      | [] => None
      end
  | RQuant p lo hi greedy => quant p greedy lo hi i s (λ i' s', k i' s' caps)
  | RGroup r1 =>
      rmatch r1 i s caps (λ i' s' caps', k i' s' (caps' ++ [take (i' - i) s]))
  | RSeq r1 r2 =>
      rmatch r1 i s caps (λ i' s' caps', rmatch r2 i' s' caps' k)
  | RBol => match i with 0 => k i s caps | S _ => None end
  | REol => match s with [] => k i s caps | _ :: _ => None end
  end.

(** The result of a successful match: start index, end index, captures. *)
Record match_result := MatchResult {
  m_index : nat;
  m_end : nat;
  m_groups : list jstring
}.

(** [RegExpBuiltinExec] for a regex without the global or sticky flag: the
    pattern is tried at index 0, 1, ... up to the length of the input. *)
Fixpoint exec_from (r : regex) (i : nat) (s : jstring) : option match_result :=
  match rmatch r i s [] (λ i' _ caps, Some (MatchResult i i' caps)) with
  | Some m => Some m
  | None =>
      match s with
      | [] => None
      | _ :: s' => exec_from r (S i) s'
      end
  end.

(** [s.match(r)] for a non-global [r]. *)
Definition re_exec (r : regex) (s : jstring) : option match_result :=
  exec_from r 0 s.

(** A sequence of terms. *)
Fixpoint rseq (rs : list regex) : regex :=
  match rs with
  | [] => RLit []
  | [r] => r
  | r :: rs' => RSeq r (rseq rs')
  end.

(** ** Types *)

Record section := MkSection {
  header : jstring;
  level : nat;
  content : jstring
}.

Global Instance section_eq_dec : EqDecision section.
Proof. solve_decision. Defined.

(** Sections that are always preserved from the existing file. *)
Definition PRESERVED_SECTIONS : list jstring :=
  [u16 "About This Project"; u16 "Pending TODOs"; u16 "Architecture Rules"].

(** ** Parse *)

(** [/^(#{1,6})\s+(.+)$/], the literal that the loop matches against each
    line.  (The constant [headerRegex] of the source, the same pattern with
    the flags [gm], is not used.) *)
Definition headingRegex : regex :=
  rseq [RBol; RGroup (RQuant is_hash 1 (Some 6) true);
        RQuant is_ws 1 None true;
        RGroup (RQuant is_dot 1 None true); REol].

(** The loop state of [parseSections]. *)
Record pstate := MkPState {
  sections : list section;
  currentSectionHeader : jstring;
  currentSectionLevel : nat;
  currentContent : list jstring;
  inSection : bool
}.

Definition pstate_init : pstate := MkPState [] [] 0 [] false.

(** [match[1].length] and [match[2].trim()] of a line, when it matches. *)
Definition match_heading (line : jstring) : option (nat * jstring) :=
  match re_exec headingRegex line with
  | Some m => Some (length (m_groups m !!! 0), trim (m_groups m !!! 1))
  | None => None
  end.

Definition close_section (st : pstate) : section :=
  MkSection (currentSectionHeader st) (currentSectionLevel st)
            (trimEnd (join [LF] (currentContent st))).

(** One iteration of the loop over the lines. *)
Definition parse_step (st : pstate) (line : jstring) : pstate :=
  match match_heading line with
  | Some (lvl, hdr) =>
      let saved :=
        if inSection st || truthy (currentSectionHeader st)
        then sections st ++ [close_section st]
        else sections st in
      MkPState saved hdr lvl [line] true
  | None =>
      if inSection st
      then MkPState (sections st) (currentSectionHeader st)
                    (currentSectionLevel st) (currentContent st ++ [line]) true
      else st
  end.

(** The push of the last section after the loop. *)
Definition parse_finish (st : pstate) : list section :=
  if inSection st && truthy (currentSectionHeader st)
  then sections st ++ [close_section st]
  else sections st.

Definition parse_lines (lines : list jstring) : list section :=
  parse_finish (foldl parse_step pstate_init lines).

Definition parseSections (markdown : jstring) : list section :=
  parse_lines (split_nl markdown).

(** Lines of text joined by line feeds, for writing documents down. *)
Definition doc (lines : list string) : jstring := join [LF] (u16 <$> lines).

(** ** Extract preserved data *)

Record PreservedData := MkPreservedData {
  description : jstring;
  architectureRules : list jstring;
  todos : list jstring
}.

(** [sections.find((s) => s.header === h)] *)
Definition find_section (h : jstring) (ss : list section) : option section :=
  List.find (λ s, bool_decide (header s = h)) ss.

Definition is_box_char (c : char) : bool := (c =? 32)%N || (c =? 120)%N.

(** [/^- \[[ x]\]/] *)
Definition todoTestRegex : regex :=
  rseq [RBol; RLit (u16 "- ["); RClass is_box_char; RLit (u16 "]")].

(** [/^- \[[ x]\]\s*(.+)$/] *)
Definition todoTextRegex : regex :=
  rseq [RBol; RLit (u16 "- ["); RClass is_box_char; RLit (u16 "]");
        RQuant is_ws 0 None true; RGroup (RQuant is_dot 1 None true); REol].

(** Everything after the heading line, trimmed. *)
Definition description_of (s : section) : jstring :=
  trim (join [LF] (drop 1 (split_nl (content s)))).

(** The lines starting with [- ], without that prefix. *)
Definition rules_of (s : section) : list jstring :=
  (λ l, trim (drop 2 (trim l)))
    <$> List.filter (λ l, startsWith (u16 "- ") (trim l)) (split_nl (content s)).

(** [m ? m[1].trim() : ''] for [m = l.trim().match(todoTextRegex)]. *)
Definition todo_text (l : jstring) : jstring :=
  match re_exec todoTextRegex (trim l) with
  | Some m => trim (m_groups m !!! 0)
  | None => []
  end.

(** The lines starting with [- [ ]] or [- [x]]. *)
Definition todos_of (s : section) : list jstring :=
  List.filter truthy
    (todo_text
       <$> List.filter (λ l, bool_decide (is_Some (re_exec todoTestRegex (trim l))))
             (split_nl (content s))).

Definition extractPreservedData (existingContent : jstring) : PreservedData :=
  let sections := parseSections existingContent in
  let aboutSection := find_section (u16 "About This Project") sections in
  let archSection := find_section (u16 "Architecture Rules") sections in
  let todoSection := find_section (u16 "Pending TODOs") sections in
  MkPreservedData
    (from_option description_of [] aboutSection)
    (from_option rules_of [] archSection)
    (from_option todos_of [] todoSection).

(** ** Merge *)

(** [for (const section of ss) map.set(section.header, section)] *)
Definition build_map (ss : list section) : gmap jstring section :=
  foldl (λ m s, <[header s := s]> m) ∅ ss.

(** The body of the loop over the new sections: the section pushed for
    [newSection]. *)
Definition select_section (existingSectionsMap : gmap jstring section)
    (newSection : section) : section :=
  if bool_decide (header newSection ∈ PRESERVED_SECTIONS) then
    match existingSectionsMap !! header newSection with
    | Some existing => existing
    | None => newSection
    end
  else newSection.

(** The body of the loop over the existing sections. *)
Definition append_step (newSectionsMap : gmap jstring section)
    (finalSections : list section) (existingSection : section) : list section :=
  let alreadyIncluded :=
    bool_decide (is_Some (newSectionsMap !! header existingSection))
    || existsb (λ s, bool_decide (header s = header existingSection))
         finalSections in
  if negb alreadyIncluded
     && negb (bool_decide (header existingSection = header existingSection))
  then finalSections ++ [existingSection]
  else finalSections.

(** The sections joined into the output, after both loops. *)
Definition finalSections (existingContent newContent : jstring) : list section :=
  let existingSections := parseSections existingContent in
  let newSections := parseSections newContent in
  let newSectionsMap := build_map newSections in
  let existingSectionsMap := build_map existingSections in
  let selected :=
    foldl (λ fs newSection, fs ++ [select_section existingSectionsMap newSection])
      [] newSections in
  foldl (append_step newSectionsMap) selected existingSections.

Definition merge (existingContent newContent : jstring) : jstring :=
  join [LF; LF] (content <$> finalSections existingContent newContent) ++ [LF].

(** ** Update header timestamp *)

Definition banner_prefix : jstring := u16 "> Auto-generated by flight-dispatcher on ".
Definition banner_suffix : jstring := u16 ". Re-run".

(** [/> Auto-generated by flight-dispatcher on .+?\. Re-run/] *)
Definition bannerRegex : regex :=
  rseq [RLit banner_prefix; RQuant is_dot 1 None false; RLit banner_suffix].

(** [GetSubstitution] for a pattern without capture groups: [$$] is a
    dollar sign, [$&] the matched text, [$`] the text before the match,
    [$'] the text after it; a [$] followed by anything else (also a digit,
    as there is no group to refer to) stands for itself. *)
Fixpoint get_substitution (matched before after tmpl : jstring) : jstring :=
  match tmpl with
  | [] => []
  | c :: t =>
      if (c =? DOLLAR)%N then
        match t with
        | d :: t' =>
            if (d =? 36)%N then DOLLAR :: get_substitution matched before after t'
            else if (d =? 38)%N then matched ++ get_substitution matched before after t'
            else if (d =? 96)%N then before ++ get_substitution matched before after t'
            else if (d =? 39)%N then after ++ get_substitution matched before after t'
            else c :: get_substitution matched before after t
        | [] => [c]
        end
      else c :: get_substitution matched before after t
  end.

(** [s.replace(r, replacement)] for a non-global [r] and a string
    [replacement]: the first match is replaced. *)
Definition replace (r : regex) (replacement s : jstring) : jstring :=
  match re_exec r s with
  | Some m =>
      let before := take (m_index m) s in
      let matched := take (m_end m - m_index m) (drop (m_index m) s) in
      let after := drop (m_end m) s in
      before ++ get_substitution matched before after replacement ++ after
  | None => s
  end.

Definition updateTimestamp (content date : jstring) : jstring :=
  replace bannerRegex (banner_prefix ++ date ++ banner_suffix) content.

(** * The vocabulary of the properties *)

(** ** Quantifiers *)

(** The upper bound of a quantifier. *)
Definition within (hi : option nat) (j : nat) : Prop :=
  match hi with Some h => j ≤ h | None => True end.

(** ** Heading lines *)

(** A heading line: [k] hashes (1 to 6), then white space [w] (at least one
    character), then text [t] (at least one character, no line terminator),
    and nothing else. *)
Definition heading_line (line : jstring) (k : nat) (w t : jstring) : Prop :=
  line = replicate k HASH ++ w ++ t ∧ 1 ≤ k ≤ 6 ∧
  w ≠ [] ∧ Forall (λ c, is_ws c = true) w ∧
  t ≠ [] ∧ Forall (λ c, is_dot c = true) t.

(** The grammar of the documentation, [^#{1,6}[ \t]+.+$], with only the space
    and the tab as separators. *)
Definition is_space_or_tab (c : char) : bool := (c =? 32)%N || (c =? 9)%N.

Definition documentedHeaderRegex : regex :=
  rseq [RBol; RGroup (RQuant is_hash 1 (Some 6) true);
        RQuant is_space_or_tab 1 None true;
        RGroup (RQuant is_dot 1 None true); REol].

(** ** Parsed sections *)

(** A section built from a heading line [h] and the lines [body] that follow
    it up to the next heading, all of which satisfy [P]. *)
Definition section_of_block (P : jstring → Prop) (s : section) : Prop :=
  ∃ h body,
    content s = trimEnd (join [LF] (h :: body)) ∧
    match_heading h = Some (level s, header s) ∧
    Forall (λ l, match_heading l = None) body ∧
    Forall P (h :: body).

(** The loop invariant of [parseSections]: the sections pushed so far come
    from blocks, and so does the section being read, if there is one; no
    header is recorded outside of a section. *)
Definition parse_inv (P : jstring → Prop) (st : pstate) : Prop :=
  Forall (section_of_block P) (sections st) ∧
  if inSection st then
    ∃ h body,
      currentContent st = h :: body ∧
      match_heading h = Some (currentSectionLevel st, currentSectionHeader st) ∧
      Forall (λ l, match_heading l = None) body ∧
      Forall P (h :: body)
  else currentSectionHeader st = [].

(** A section whose content parses back to the section itself: the content
    is right-trimmed, its first line is a heading line with the level and
    the header of the section, no other line of it is a heading line, and the
    header is not empty. *)
Definition well_formed_section (s : section) : Prop :=
  ∃ h body,
    split_nl (content s) = h :: body ∧
    match_heading h = Some (level s, header s) ∧
    Forall (λ l, match_heading l = None) body ∧
    trimEnd (content s) = content s ∧
    header s ≠ [].

(** The only line terminator of the text is the line feed: no carriage
    return, no U+2028, no U+2029. *)
Definition only_lf_breaks (s : jstring) : Prop :=
  Forall (λ c, is_line_terminator c = true → c = LF) s.

(** The lines a section takes in the output of [merge]: the lines of its
    content and an empty line. *)
Definition section_lines (s : section) : list jstring :=
  split_nl (content s) ++ [[]].

(** ** Sections by header *)

(** [s] is the first section of [ss] with header [h], at index [i]. *)
Definition first_with_header (h : jstring) (ss : list section) (i : nat)
    (s : section) : Prop :=
  ss !! i = Some s ∧ header s = h ∧
  ∀ j s', j < i → ss !! j = Some s' → header s' ≠ h.

(** [s] is the last section of [ss] with header [h], at index [i]. *)
Definition last_with_header (h : jstring) (ss : list section) (i : nat)
    (s : section) : Prop :=
  ss !! i = Some s ∧ header s = h ∧
  ∀ j s', i < j → ss !! j = Some s' → header s' ≠ h.

(** ** Checkbox lines *)

(** What follows the checkbox of a line that starts with [- [ ]] or
    [- [x]]. *)
Definition checkbox_rest (t : jstring) : option jstring :=
  if startsWith (u16 "- [ ]") t || startsWith (u16 "- [x]") t
  then Some (drop 5 t) else None.

(** What [todoTextRegex] does after the checkbox: [\s*(.+)$]. *)
Definition match_todo_text (rest : jstring) : option match_result :=
  quant is_ws true 0 None 5 rest (λ i2 s2,
    quant is_dot true 1 None i2 s2 (λ i3 s3,
      match s3 with
      | [] => Some (MatchResult 0 i3 [take (i3 - i2) s2])
      | _ :: _ => None
      end)).

(** The entry a line contributes to the todo list: the text after the
    checkbox of the trimmed line, trimmed, unless it is empty or holds a line
    terminator. *)
Definition todo_entry (l : jstring) : option jstring :=
  match checkbox_rest (trim l) with
  | Some rest =>
      if truthy (trim rest) && forallb is_dot (trim rest)
      then Some (trim rest) else None
  | None => None
  end.

(** The entry as documented: the text after the checkbox, trimmed, unless it
    is empty. *)
Definition documented_todo_entry (l : jstring) : option jstring :=
  match checkbox_rest (trim l) with
  | Some rest => if truthy (trim rest) then Some (trim rest) else None
  | None => None
  end.

(** ** Banners *)

(** [content] holds a banner after [before]: the prefix, a date span [d]
    (at least one character, no line terminator), the suffix, then
    [after]. *)
Definition banner_match (content before d after : jstring) : Prop :=
  content = before ++ banner_prefix ++ d ++ banner_suffix ++ after ∧
  d ≠ [] ∧ Forall (λ c, is_dot c = true) d.

(** The banner of the documentation: the prefix, any characters [d], then
    the suffix. *)
Definition documented_banner_match (content before d after : jstring) : Prop :=
  content = before ++ banner_prefix ++ d ++ banner_suffix ++ after.

(** ** Example documents *)

(** Two sections with the same preserved header. *)
Definition two_abouts : jstring :=
  doc ["## About This Project"; "first"; "## About This Project"; "second"].

(** A todo whose text holds a carriage return. *)
Definition todo_with_cr : jstring :=
  doc ["## Pending TODOs"] ++ [LF] ++ u16 "- [ ] a" ++ [CR] ++ u16 "b".

(** A generated document with its banner, and the word Re-run further
    down. *)
Definition banner_2025 : jstring :=
  doc ["> Auto-generated by flight-dispatcher on 2025-12-31. Re-run `npx flight-dispatcher` to update.";
       ""; "## Git Hooks"; "Re-run the installer."].

(** A banner without a date. *)
Definition banner_no_date : jstring :=
  u16 "> Auto-generated by flight-dispatcher on . Re-run `npx flight-dispatcher` to update.".

(** A banner without a date, and the words of the suffix further down. *)
Definition banner_no_date_twice : jstring :=
  u16 "> Auto-generated by flight-dispatcher on . Re-run to update. Re-run the installer.".

(** A banner whose date ends with a line feed. *)
Definition banner_broken_date : jstring :=
  u16 "> Auto-generated by flight-dispatcher on 2025-12-31" ++ [LF]
  ++ u16 ". Re-run `npx flight-dispatcher` to update.".


(** A heading line with nothing but white space after the hash. *)
Definition blank_heading_doc : jstring := doc ["#  "; "# A"].

(** A last line that ends with a carriage return. *)
Definition cr_line_doc : jstring := doc ["# X"] ++ [LF] ++ u16 "# A" ++ [CR].

(** ** Headings and entries of a document *)

(** The level and the header of a section. *)
Definition section_info (s : section) : nat * jstring := (level s, header s).

(** The level and the header of each heading line, in the order of the
    lines. *)
Definition heading_infos (lines : list jstring) : list (nat * jstring) :=
  omap match_heading lines.

(** A last heading with an empty header gives no section. *)
Definition drop_empty_last (hs : list (nat * jstring)) : list (nat * jstring) :=
  match last hs with
  | Some (_, []) => take (length hs - 1) hs
  | _ => hs
  end.

(** The line that holds a rule. *)
Definition rule_line (r : jstring) : jstring := u16 "- " ++ r.

(** The line that holds a todo, checked or not. *)
Definition todo_line_of (t : bool * jstring) : jstring :=
  (if t.1 then u16 "- [x] " else u16 "- [ ] ") ++ t.2.

(** A piece of text that fits on a line of a list: not empty, without
    white space at either end, and without line feed. *)
Definition plain_text (r : jstring) : Prop :=
  r ≠ [] ∧ trim r = r ∧ LF ∉ r.

(** The header [h] is carried by a section of the new document and by
    exactly one section of the existing document. *)
Definition kept_once (h : jstring) (existingSections newSections : list section) : Prop :=
  (∃ newSection, newSection ∈ newSections ∧ header newSection = h) ∧
  ∃ j existing,
    first_with_header h existingSections j existing ∧
    last_with_header h existingSections j existing.

(** * Properties *)

(** ** The examples of the documentation *)

Example parse_two_sections :
  parseSections (doc ["intro"; "# Title"; "body"; ""; "## Sub  "; "x"; ""])
  = [MkSection (u16 "Title") 1 (doc ["# Title"; "body"]);
     MkSection (u16 "Sub") 2 (doc ["## Sub  "; "x"])].
Proof. vm_compute. reflexivity. Qed.

Example extract_rules :
  architectureRules
    (extractPreservedData (doc ["## Architecture Rules"; "- Use X"; "- Use Y"; ""]))
  = [u16 "Use X"; u16 "Use Y"].
Proof. vm_compute. reflexivity. Qed.

Example extract_todos :
  todos (extractPreservedData
           (doc ["## Pending TODOs"; "- [ ] A"; "- [x] B"; "- not a todo"; ""]))
  = [u16 "A"; u16 "B"].
Proof. vm_compute. reflexivity. Qed.

Example merge_preserves_about :
  merge (doc ["## About This Project"; "Hello"])
        (doc ["## About This Project"; "Goodbye"; "## Tech Stack"; "TS"])
  = doc ["## About This Project"; "Hello"; ""; "## Tech Stack"; "TS"; ""].
Proof. vm_compute. reflexivity. Qed.

Example update_no_banner :
  updateTimestamp (u16 "no banner here") (u16 "2026-01-01") = u16 "no banner here".
Proof. vm_compute. reflexivity. Qed.

Example update_banner :
  updateTimestamp
    (doc ["> Auto-generated by flight-dispatcher on 2025-12-31. Re-run `x` to update.";
          "Re-run"])
    (u16 "2026-01-01")
  = doc ["> Auto-generated by flight-dispatcher on 2026-01-01. Re-run `x` to update.";
         "Re-run"].
Proof. vm_compute. reflexivity. Qed.

(** ** The two loops of [merge] *)

Section merge_loops.
Implicit Types (ss : list section) (h : jstring) (m : gmap jstring section).

Lemma build_map_snoc ss s :
  build_map (ss ++ [s]) = <[header s := s]> (build_map ss).
Proof. unfold build_map. by rewrite foldl_app. Qed.

(** A header that no section carries is not a key of the map. *)
Lemma build_map_None ss h :
  build_map ss !! h = None ↔ ∀ s, s ∈ ss → header s ≠ h.
Proof.
  induction ss as [|s ss IH] using rev_ind.
  - split; [intros _ s Hs; by apply elem_of_nil in Hs | done].
  - rewrite build_map_snoc. split.
    + intros Hl s' Hs'. apply lookup_insert_None in Hl as [Hl Hne].
      apply elem_of_app in Hs' as [Hs'|Hs'].
      * by apply IH.
      * apply list_elem_of_singleton in Hs'. by subst.
    + intros Hall. apply lookup_insert_None. split.
      * apply IH. intros s' Hs'. apply Hall, elem_of_app. by left.
      * apply Hall, elem_of_app. right. by apply list_elem_of_singleton.
Qed.

(** Later insertions overwrite earlier ones: the map holds, for each header,
    the last section of the list with that header. *)
Lemma build_map_Some ss h es :
  build_map ss !! h = Some es ↔
  ∃ j, ss !! j = Some es ∧ header es = h ∧
       ∀ j' s', j < j' → ss !! j' = Some s' → header s' ≠ h.
Proof.
  revert es. induction ss as [|s ss IH] using rev_ind; intros es.
  - split; [done | by intros (j & Hj & _)].
  - rewrite build_map_snoc. split.
    + intros Hl. apply lookup_insert_Some in Hl as [[Hh ->]|[Hne Hl]].
      * exists (length ss). split_and!; [by apply list_lookup_middle | done |].
        intros j' s' Hlt Hj'. apply lookup_lt_Some in Hj'.
        rewrite length_app in Hj'. simpl in Hj'. lia.
      * apply IH in Hl as (j & Hj & Hh & Hlast). exists j.
        split_and!; [by apply lookup_app_l_Some | done |].
        intros j' s' Hlt Hj'. apply lookup_app_Some in Hj' as [Hj'|[Hge Hj']].
        -- by eapply Hlast.
        -- apply list_lookup_singleton_Some in Hj' as [_ <-]. done.
    + intros (j & Hj & Hh & Hlast).
      apply lookup_app_Some in Hj as [Hj|[Hge Hj]].
      * destruct (decide (header s = h)) as [Heq|Hne].
        -- exfalso. eapply (Hlast (length ss) s); [ | by apply list_lookup_middle | done].
           by apply lookup_lt_Some in Hj.
        -- rewrite lookup_insert_ne; [|done]. apply IH. exists j.
           split_and!; [done..|]. intros j' s' Hlt Hj'.
           eapply Hlast; [done|]. by apply lookup_app_l_Some.
      * apply list_lookup_singleton_Some in Hj as [_ <-].
        rewrite <- Hh. by rewrite lookup_insert_eq.
Qed.

(** The first loop pushes one section per new section. *)
Lemma select_loop m ss :
  foldl (λ fs newSection, fs ++ [select_section m newSection]) [] ss
  = select_section m <$> ss.
Proof.
  induction ss as [|s ss IH] using rev_ind; [done|].
  by rewrite foldl_app, fmap_app, IH.
Qed.

(** The guard of the second loop compares a header with itself: nothing is
    ever appended. *)
Lemma append_step_id m fs es : append_step m fs es = fs.
Proof.
  unfold append_step. rewrite (bool_decide_eq_true_2 (header es = header es)) by done.
  simpl. by rewrite andb_false_r.
Qed.

Lemma append_loop_id m fs ss : foldl (append_step m) fs ss = fs.
Proof.
  induction ss as [|s ss IH] using rev_ind; [done|].
  by rewrite foldl_app; simpl; rewrite append_step_id.
Qed.

Lemma finalSections_eq existingContent newContent :
  finalSections existingContent newContent
  = select_section (build_map (parseSections existingContent))
      <$> parseSections newContent.
Proof. unfold finalSections. by rewrite append_loop_id, select_loop. Qed.

Lemma select_section_header m s :
  (∀ h es, m !! h = Some es → header es = h) →
  header (select_section m s) = header s.
Proof.
  intros Hm. unfold select_section. case_bool_decide; [|done].
  destruct (m !! header s) as [es|] eqn:Hl; [by apply Hm|done].
Qed.

Lemma build_map_header ss h es :
  build_map ss !! h = Some es → header es = h.
Proof. intros Hl. by apply build_map_Some in Hl as (? & ? & ? & ?). Qed.

Lemma finalSections_headers existingContent newContent :
  header <$> finalSections existingContent newContent
  = header <$> parseSections newContent.
Proof.
  rewrite finalSections_eq, <- list_fmap_compose. apply list_fmap_ext.
  intros _ s _. apply select_section_header. intros h es.
  apply build_map_header.
Qed.
End merge_loops.

(** ** Strings *)

Section strings.
Implicit Types (s t w : jstring) (c : char) (ls : list jstring).

Lemma startsWith_prefix p s : startsWith p s = true ↔ ∃ t, s = p ++ t.
Proof.
  revert s. induction p as [|a p IH]; intros s; simpl.
  - split; [by exists s | done].
  - destruct s as [|b s]; [split; [done | by intros [? ?]]|].
    rewrite andb_true_iff, N.eqb_eq, IH. split.
    + intros [-> [t ->]]. by exists t.
    + intros [t [= -> ->]]. eauto.
Qed.

Lemma startsWith_app p t : startsWith p (p ++ t) = true.
Proof. apply startsWith_prefix. by exists t. Qed.

Lemma trimStart_app_ws w t :
  Forall (λ c, is_ws c = true) w → trimStart (w ++ t) = trimStart t.
Proof. induction 1 as [|c w Hc _ IH]; simpl; [done|]. by rewrite Hc. Qed.

Lemma trimStart_ws w : Forall (λ c, is_ws c = true) w → trimStart w = [].
Proof. intros H. rewrite <- (app_nil_r w). by rewrite trimStart_app_ws. Qed.

Lemma trimStart_cons_not_ws c s : is_ws c = false → trimStart (c :: s) = c :: s.
Proof. simpl. by intros ->. Qed.

(** [trimStart] removes a prefix of white space, and what is left does not
    start with white space. *)
Lemma trimStart_spec s :
  ∃ w, s = w ++ trimStart s ∧ Forall (λ c, is_ws c = true) w ∧
       match trimStart s with [] => True | c :: _ => is_ws c = false end.
Proof.
  induction s as [|c s (w & Hs & Hw & Hhd)]; simpl.
  - by exists [].
  - destruct (is_ws c) eqn:Hc.
    + exists (c :: w). split_and!; [by rewrite Hs at 1 | by constructor | done].
    + exists []. by rewrite Hc.
Qed.

Lemma trimStart_idemp s : trimStart (trimStart s) = trimStart s.
Proof.
  destruct (trimStart_spec s) as (w & _ & _ & Hhd).
  destruct (trimStart s) as [|c t]; [done|]. by apply trimStart_cons_not_ws.
Qed.

Lemma trimEnd_app_ws s w :
  Forall (λ c, is_ws c = true) w → trimEnd (s ++ w) = trimEnd s.
Proof.
  intros Hw. unfold trimEnd. rewrite reverse_app, trimStart_app_ws; [done|].
  by apply Forall_reverse.
Qed.

Lemma trimEnd_snoc_not_ws s c : is_ws c = false → trimEnd (s ++ [c]) = s ++ [c].
Proof.
  intros Hc. unfold trimEnd. rewrite reverse_snoc. simpl. rewrite Hc.
  by rewrite <- reverse_snoc, reverse_involutive.
Qed.

(** [trimEnd] removes a suffix of white space, and what is left does not
    end with white space. *)
Lemma trimEnd_spec s :
  ∃ w, s = trimEnd s ++ w ∧ Forall (λ c, is_ws c = true) w ∧
       ∀ t c, trimEnd s = t ++ [c] → is_ws c = false.
Proof.
  unfold trimEnd. destruct (trimStart_spec (reverse s)) as (w & Hs & Hw & Hhd).
  exists (reverse w). split_and!.
  - by rewrite <- reverse_app, <- Hs, reverse_involutive.
  - by apply Forall_reverse.
  - intros t c Ht. apply (f_equal reverse) in Ht.
    rewrite reverse_involutive, reverse_snoc in Ht.
    by rewrite Ht in Hhd.
Qed.

Lemma trimEnd_idemp s : trimEnd (trimEnd s) = trimEnd s.
Proof.
  destruct (trimEnd_spec s) as (w & _ & _ & Hlast).
  destruct (trimEnd s) as [|c t _] using rev_ind; [done|].
  apply trimEnd_snoc_not_ws. by eapply Hlast.
Qed.

Lemma trimEnd_nil_ws s : trimEnd s = [] → Forall (λ c, is_ws c = true) s.
Proof.
  intros H. destruct (trimEnd_spec s) as (w & Hs & Hw & _).
  rewrite H in Hs. by subst.
Qed.

Lemma trim_app_ws w t :
  Forall (λ c, is_ws c = true) w → trim (w ++ t) = trim t.
Proof. intros H. unfold trim. by rewrite trimStart_app_ws. Qed.

(** A trimmed string neither starts nor ends with white space. *)
Lemma trim_spec s :
  ∃ w1 w2, s = w1 ++ trim s ++ w2 ∧
    Forall (λ c, is_ws c = true) w1 ∧ Forall (λ c, is_ws c = true) w2 ∧
    (∀ c t, trim s = c :: t → is_ws c = false) ∧
    (∀ t c, trim s = t ++ [c] → is_ws c = false).
Proof.
  unfold trim. destruct (trimStart_spec s) as (w1 & Hs1 & Hw1 & Hhd).
  destruct (trimEnd_spec (trimStart s)) as (w2 & Hs2 & Hw2 & Hlast).
  exists w1, w2. split_and!; [by rewrite <- Hs2 | done..| | done].
  intros c t Ht. rewrite Ht in Hs2. simpl in Hs2. by rewrite Hs2 in Hhd.
Qed.

Lemma trim_idemp s : trim (trim s) = trim s.
Proof.
  destruct (trim_spec s) as (_ & _ & _ & _ & _ & Hhd & _).
  unfold trim at 1. destruct (trim s) as [|c t] eqn:E; [done|].
  rewrite trimStart_cons_not_ws by eauto. rewrite <- E. unfold trim.
  apply trimEnd_idemp.
Qed.
End strings.

(** ** Lines *)

Section lines.
Implicit Types (s t : jstring) (c : char) (ls : list jstring).

Lemma join_cons sep l l' ls :
  join sep (l :: l' :: ls) = l ++ sep ++ join sep (l' :: ls).
Proof. done. Qed.

Lemma split_nl_cons_inv s : ∃ l ls, split_nl s = l :: ls.
Proof.
  induction s as [|c s (l & ls & IH)]; simpl; [by eauto|].
  destruct (c =? LF)%N; [by eauto|]. rewrite IH. eauto.
Qed.

Lemma split_nl_no_lf s : LF ∉ s → split_nl s = [s].
Proof.
  induction s as [|c s IH]; [done|]. intros Hnot. simpl.
  apply not_elem_of_cons in Hnot as [Hc Hs].
  destruct (N.eqb_spec c LF) as [->|_]; [done|]. by rewrite IH.
Qed.

Lemma split_nl_app s t :
  LF ∉ s → split_nl (s ++ LF :: t) = s :: split_nl t.
Proof.
  induction s as [|c s IH]; [done|]. intros Hnot. simpl.
  apply not_elem_of_cons in Hnot as [Hc Hs].
  destruct (N.eqb_spec c LF) as [->|_]; [done|]. by rewrite IH.
Qed.

(** The lines of a text contain no line feed. *)
Lemma split_nl_lines s : Forall (λ l, LF ∉ l) (split_nl s).
Proof.
  induction s as [|c s IH]; simpl.
  - repeat constructor. by intros ?%elem_of_nil.
  - destruct (N.eqb_spec c LF) as [->|Hne].
    + constructor; [by intros ?%elem_of_nil | done].
    + destruct (split_nl s) as [|l ls]; [repeat constructor|].
      * intros [?|?%elem_of_nil]%elem_of_cons; done.
      * apply Forall_cons in IH as [Hl Hls]. constructor; [|done].
        intros [?|?]%elem_of_cons; done.
Qed.

(** Joining the lines gives the text back. *)
Lemma join_split_nl s : join [LF] (split_nl s) = s.
Proof.
  induction s as [|c s IH]; [done|]. simpl.
  destruct (N.eqb_spec c LF) as [->|Hne].
  - destruct (split_nl_cons_inv s) as (l & ls & E). rewrite E in *.
    by rewrite join_cons, IH.
  - destruct (split_nl s) as [|l ls]; [by inversion IH|].
    destruct ls; simpl in *; by rewrite <- IH.
Qed.

(** Splitting a text joined from lines gives the lines back. *)
Lemma split_nl_join ls :
  ls ≠ [] → Forall (λ l, LF ∉ l) ls → split_nl (join [LF] ls) = ls.
Proof.
  induction ls as [|l ls IH]; [done|]. intros _ [Hl Hls]%Forall_cons.
  destruct ls as [|l' ls]; [by apply split_nl_no_lf|].
  change (join [LF] (l :: l' :: ls)) with (l ++ LF :: join [LF] (l' :: ls)).
  rewrite split_nl_app by done. by rewrite IH.
Qed.

Lemma join_snoc sep ls l :
  ls ≠ [] → join sep (ls ++ [l]) = join sep ls ++ sep ++ l.
Proof.
  induction ls as [|l0 ls IH]; [done|]. intros _.
  destruct ls as [|l1 ls]; [done|].
  change ((l0 :: l1 :: ls) ++ [l]) with (l0 :: l1 :: (ls ++ [l])).
  rewrite join_cons. change (l1 :: ls ++ [l]) with ((l1 :: ls) ++ [l]).
  rewrite IH by done. rewrite join_cons. by rewrite <- !app_assoc.
Qed.
End lines.

(** ** The matcher *)

Section matcher.
Context {A : Type}.
Implicit Types (p : char → bool) (s : jstring) (k : nat → jstring → option A).

Lemma within_pred hi j : within (pred <$> hi) j → more_allowed hi = true → within hi (S j).
Proof. destruct hi as [[|h]|]; simpl; [done| lia | done]. Qed.

Lemma within_S hi j : within hi (S j) → within (pred <$> hi) j ∧ more_allowed hi = true.
Proof. destruct hi as [[|h]|]; simpl; [lia | split; [lia|done] | done]. Qed.

(** Whatever a quantified class answers is the answer of its continuation
    after a number of characters of the class that the bounds allow. *)
Lemma quant_sound p g lo hi i s k a :
  quant p g lo hi i s k = Some a →
  ∃ j, lo ≤ j ∧ within hi j ∧ j ≤ length s ∧
       Forall (λ c, p c = true) (take j s) ∧ k (i + j) (drop j s) = Some a.
Proof.
  revert lo hi i. induction s as [|c s IH]; intros lo hi i; simpl.
  - destruct lo; [|done]. intros Hk. exists 0.
    rewrite Nat.add_0_r. split_and!; try done. by destruct hi; simpl; [lia|].
  - assert (Hzero : k i (c :: s) = Some a →
      ∃ j, 0 ≤ j ∧ within hi j ∧ j ≤ S (length s) ∧
        Forall (λ c, p c = true) (take j (c :: s)) ∧
        k (i + j) (drop j (c :: s)) = Some a).
    { intros Hk. exists 0. rewrite Nat.add_0_r.
      split_and!; try done; [by destruct hi; simpl; [lia|] | lia]. }
    assert (Hmore : ∀ lo', p c && more_allowed hi = true →
      quant p g lo' (pred <$> hi) (S i) s k = Some a →
      ∃ j, S lo' ≤ j ∧ within hi j ∧ j ≤ S (length s) ∧
        Forall (λ c, p c = true) (take j (c :: s)) ∧
        k (i + j) (drop j (c :: s)) = Some a).
    { intros lo' [Hp Hhi]%andb_true_iff (j & Hlo & Hin & Hlen & Hall & Hk)%IH.
      exists (S j). split_and!; [lia | by apply within_pred | lia | by constructor |].
      by rewrite Nat.add_succ_r. }
    destruct lo as [|lo'].
    + destruct (p c && more_allowed hi) eqn:Hc; [|done].
      destruct g.
      * destruct (quant p true 0 _ _ s k) eqn:Hq.
        -- intros [= ->]. destruct (Hmore 0 eq_refl Hq) as (j & ? & ?).
           exists j. split; [lia|done].
        -- done.
      * destruct (k i (c :: s)) eqn:Hk.
        -- intros [= ->]. by apply Hzero.
        -- intros Hq. destruct (Hmore 0 eq_refl Hq) as (j & ? & ?).
           exists j. split; [lia|done].
    + destruct (p c && more_allowed hi) eqn:Hc; [|done]. by apply Hmore.
Qed.

(** If the continuation answers after some number of characters of the
    class that the bounds allow, the quantified class answers. *)
Lemma quant_complete p g lo hi i s k j :
  lo ≤ j → within hi j → j ≤ length s →
  Forall (λ c, p c = true) (take j s) → is_Some (k (i + j) (drop j s)) →
  is_Some (quant p g lo hi i s k).
Proof.
  revert lo hi i j. induction s as [|c s IH]; intros lo hi i j Hlo Hin Hlen Hall Hk.
  - simpl in *. assert (j = 0) as -> by lia. assert (lo = 0) as -> by lia.
    by rewrite Nat.add_0_r in Hk.
  - destruct j as [|j].
    + assert (lo = 0) as -> by lia. rewrite Nat.add_0_r in Hk. simpl in *.
      destruct (p c && more_allowed hi); [|done].
      destruct g; [by destruct (quant p true 0 _ _ s k) | by destruct Hk as [? ->]].
    + simpl in Hall, Hk, Hlen. apply Forall_cons in Hall as [Hc Hall].
      apply within_S in Hin as [Hin Hhi]. rewrite Nat.add_succ_r in Hk.
      assert (is_Some (quant p g (pred lo) (pred <$> hi) (S i) s k)) as Hq.
      { apply (IH _ _ _ j); [lia | done | lia | done | done]. }
      simpl. rewrite Hc, Hhi. simpl. destruct lo as [|lo']; [|done].
      simpl in Hq. destruct g; [by destruct Hq as [? ->]|].
      by destruct (k i (c :: s)).
Qed.

(** A lazy quantifier stops at the first count its continuation accepts. *)
Lemma quant_lazy_first p lo hi i s k a :
  quant p false lo hi i s k = Some a →
  ∃ j, lo ≤ j ∧ within hi j ∧ j ≤ length s ∧
       Forall (λ c, p c = true) (take j s) ∧ k (i + j) (drop j s) = Some a ∧
       ∀ j', lo ≤ j' < j → k (i + j') (drop j' s) = None.
Proof.
  revert lo hi i. induction s as [|c s IH]; intros lo hi i; simpl.
  - destruct lo; [|done]. intros Hk. exists 0.
    rewrite Nat.add_0_r. split_and!; try done; [|lia].
    by destruct hi; simpl; [lia|].
  - assert (Hmore : ∀ lo', p c && more_allowed hi = true →
      quant p false lo' (pred <$> hi) (S i) s k = Some a →
      ∃ j, S lo' ≤ j ∧ within hi j ∧ j ≤ S (length s) ∧
        Forall (λ c, p c = true) (take j (c :: s)) ∧
        k (i + j) (drop j (c :: s)) = Some a ∧
        ∀ j', S lo' ≤ j' < j → k (i + j') (drop j' (c :: s)) = None).
    { intros lo' [Hp Hhi]%andb_true_iff
        (j & Hlo & Hin & Hlen & Hall & Hk & Hmin)%IH.
      exists (S j). split_and!; [lia | by apply within_pred | lia | by constructor | |].
      - by rewrite Nat.add_succ_r.
      - intros [|j'] Hj'; [lia|]. rewrite Nat.add_succ_r. apply Hmin. lia. }
    destruct lo as [|lo'].
    + destruct (p c && more_allowed hi) eqn:Hc.
      * destruct (k i (c :: s)) eqn:Hk.
        -- intros [= ->]. exists 0. rewrite Nat.add_0_r.
           split_and!; try done; [by destruct hi; simpl; [lia|] | lia | lia].
        -- intros Hq. destruct (Hmore 0 eq_refl Hq) as (j & ? & ? & ? & ? & ? & Hmin).
           exists j. split_and!; [lia | done..|].
           intros [|j'] Hj'; [by rewrite Nat.add_0_r | apply Hmin; lia].
      * intros Hk. exists 0. rewrite Nat.add_0_r.
        split_and!; try done; [by destruct hi; simpl; [lia|] | lia | lia].
    + destruct (p c && more_allowed hi) eqn:Hc; [|done]. by apply Hmore.
Qed.
End matcher.

(** A pattern that starts with [^] is only tried at index 0. *)
Lemma re_exec_anchored r s :
  re_exec (RSeq RBol r) s
  = rmatch r 0 s [] (λ i' _ caps, Some (MatchResult 0 i' caps)).
Proof.
  assert (Hlater : ∀ t i, exec_from (RSeq RBol r) (S i) t = None).
  { induction t as [|c t IH]; intros i; simpl; [done | apply IH]. }
  unfold re_exec. destruct s as [|c s]; simpl.
  - by destruct (rmatch r 0 [] [] _).
  - destruct (rmatch r 0 (c :: s) [] _); [done | apply Hlater].
Qed.

(** ** The heading grammar *)

Section heading.
Implicit Types (line w t : jstring) (k lvl : nat).

Lemma match_heading_unfold line :
  match_heading line =
  match
    quant is_hash true 1 (Some 6) 0 line (λ i1 s1,
      quant is_ws true 1 None i1 s1 (λ i2 s2,
        quant is_dot true 1 None i2 s2 (λ i3 s3,
          match s3 with
          | [] => Some (MatchResult 0 i3 [take (i1 - 0) line; take (i3 - i2) s2])
          | _ :: _ => None
          end)))
  with
  | Some m => Some (length (m_groups m !!! 0), trim (m_groups m !!! 1))
  | None => None
  end.
Proof.
  unfold match_heading, headingRegex. simpl rseq. by rewrite re_exec_anchored.
Qed.

Lemma take_all_hash j line :
  j ≤ length line → Forall (λ c, is_hash c = true) (take j line) →
  take j line = replicate j HASH.
Proof.
  revert line. induction j as [|j IH]; intros [|c line] Hlen Hall; simpl in *;
    [done | done | lia |].
  apply Forall_cons in Hall as [Hc Hall]. apply N.eqb_eq in Hc as ->.
  f_equal. apply IH; [lia|done].
Qed.

Lemma take_nonempty {X} j (s : list X) : 1 ≤ j → j ≤ length s → take j s ≠ [].
Proof. destruct j, s; simpl; intros; [lia | lia | lia | done]. Qed.

(** Soundness: a line that matches is a heading line. *)
Lemma match_heading_sound line lvl hdr :
  match_heading line = Some (lvl, hdr) →
  ∃ w t, heading_line line lvl w t ∧ hdr = trim t.
Proof.
  rewrite match_heading_unfold.
  destruct (quant is_hash _ _ _ _ _ _) as [m|] eqn:Hq; [|done].
  intros [= <- <-].
  apply quant_sound in Hq as (j1 & Hlo1 & Hhi1 & Hlen1 & Hall1 & Hq).
  apply quant_sound in Hq as (j2 & Hlo2 & _ & Hlen2 & Hall2 & Hq).
  apply quant_sound in Hq as (j3 & Hlo3 & _ & Hlen3 & Hall3 & Hq).
  destruct (drop j3 _) as [|] eqn:Hend; [|done]. injection Hq as <-.
  simpl in Hhi1. simpl m_groups.
  set (s1 := drop j1 line) in *. set (s2 := drop j2 s1) in *.
  assert (take j3 s2 = s2) as Ht.
  { apply take_ge. apply (f_equal length) in Hend.
    rewrite length_drop in Hend. simpl in Hend. lia. }
  rewrite Nat.sub_0_r. replace (j1 + j2 + j3 - (j1 + j2)) with j3 by lia.
  change ([take j1 line; take j3 s2] !!! 0) with (take j1 line).
  change ([take j1 line; take j3 s2] !!! 1) with (take j3 s2).
  rewrite Ht in *. rewrite length_take_le by done.
  exists (take j2 s1), s2. split; [|done]. split_and!; try done; try lia.
  - rewrite <- (take_all_hash j1 line) by done.
    unfold s2, s1. by rewrite !take_drop.
  - by apply take_nonempty.
  - intros ->. simpl in Hlen3. lia.
Qed.

(** Completeness: a heading line matches. *)
Lemma match_heading_complete line k w t :
  heading_line line k w t → is_Some (match_heading line).
Proof.
  intros (-> & Hk & Hw & Hws & Ht & Hdot). rewrite match_heading_unfold.
  match goal with |- is_Some (match ?q with _ => _ end) =>
    assert (is_Some q) as [m ->]; [|done] end.
  assert (Hdrop1 : drop k (replicate k HASH ++ w ++ t) = w ++ t).
  { rewrite drop_app_length'; [done | by rewrite length_replicate]. }
  apply (quant_complete _ _ _ _ _ _ _ k); simpl; try lia.
  - rewrite length_app, length_replicate. lia.
  - rewrite take_app_length' by (by rewrite length_replicate).
    by apply Forall_replicate.
  - rewrite Hdrop1. apply (quant_complete _ _ _ _ _ _ _ (length w)); simpl; try done.
    + destruct w; [done | simpl; lia].
    + rewrite length_app. lia.
    + by rewrite take_app_length.
    + rewrite drop_app_length.
      apply (quant_complete _ _ _ _ _ _ _ (length t)); simpl; try done.
      * destruct t; [done | simpl; lia].
      * by rewrite firstn_all.
      * by rewrite drop_all.
Qed.

(** The number of hashes of a heading line is determined by the line. *)
Lemma heading_line_level line k w t k' w' t' :
  heading_line line k w t → heading_line line k' w' t' → k = k'.
Proof.
  intros (-> & _ & Hw & Hws & _) (E & _ & Hw' & Hws' & _).
  revert k' E. induction k as [|k IH]; intros [|k'] E; simpl in *.
  - done.
  - destruct w as [|c w]; [done|]. apply Forall_cons in Hws as [Hc _].
    injection E as -> _. done.
  - destruct w' as [|c w']; [done|]. apply Forall_cons in Hws' as [Hc _].
    injection E as <- _. done.
  - injection E as E. f_equal. by apply IH.
Qed.

(** The header of a heading line is the text after the hashes, trimmed. *)
Lemma heading_line_header line k w t :
  heading_line line k w t → trim t = trim (drop k line).
Proof.
  intros (-> & _ & _ & Hws & _).
  rewrite drop_app_length' by (by rewrite length_replicate).
  by rewrite trim_app_ws.
Qed.

(** Comparing two runs of hashes at the start of the same line. *)
Lemma hash_run_lt k lvl rest w t :
  replicate k HASH ++ rest = replicate lvl HASH ++ w ++ t →
  lvl < k → w ≠ [] → Forall (λ c, is_ws c = true) w → False.
Proof.
  revert k. induction lvl as [|lvl IH]; intros [|k] E Hlt Hw Hws; try lia.
  - destruct w as [|c w]; [done|]. apply Forall_cons in Hws as [Hc _].
    simpl in E. injection E as <- _. done.
  - simpl in E. injection E as E. apply (IH k); [done | lia | done..].
Qed.

Lemma hash_run_gt k lvl rest x :
  replicate k HASH ++ rest = replicate lvl HASH ++ x →
  k < lvl → ∃ rest', rest = HASH :: rest'.
Proof.
  revert lvl. induction k as [|k IH]; intros [|lvl] E Hlt; try lia.
  - simpl in E. eauto.
  - simpl in E. injection E as E. apply (IH lvl); [done | lia].
Qed.

Lemma hash_run_eq k rest x :
  replicate k HASH ++ rest = replicate k HASH ++ x → rest = x.
Proof. apply app_inv_head. Qed.

Lemma match_heading_Some line lvl hdr :
  match_heading line = Some (lvl, hdr) ↔
  (∃ w t, heading_line line lvl w t) ∧ hdr = trim (drop lvl line).
Proof.
  split.
  - intros (w & t & Hl & ->)%match_heading_sound. split; [by eauto|].
    by eapply heading_line_header.
  - intros [(w & t & Hl) ->]. destruct (match_heading_complete _ _ _ _ Hl) as [[k h] Hm].
    rewrite Hm. apply match_heading_sound in Hm as (w' & t' & Hl' & ->).
    rewrite (heading_line_level _ _ _ _ _ _ _ Hl Hl').
    by rewrite (heading_line_header _ _ _ _ Hl').
Qed.

Lemma match_heading_None line :
  match_heading line = None ↔ ∀ k w t, ¬ heading_line line k w t.
Proof.
  split.
  - intros Hm k w t Hl. apply match_heading_complete in Hl as [? Hl]. congruence.
  - intros Hno. destruct (match_heading line) as [[k h]|] eqn:Hm; [|done].
    apply match_heading_sound in Hm as (w & t & Hl & _). by destruct (Hno k w t).
Qed.
End heading.

(** ** The parser loop *)

Section parser.
Implicit Types (st : pstate) (line l : jstring) (lines ls pre : list jstring).

Lemma split_nl_app_lf s t : split_nl (s ++ LF :: t) = split_nl s ++ split_nl t.
Proof.
  induction s as [|c s IH]; [done|]. simpl.
  destruct (c =? LF)%N; [by rewrite IH|]. rewrite IH.
  by destruct (split_nl_cons_inv s) as (l & ls & ->).
Qed.

Lemma parse_step_heading st line lvl hdr :
  match_heading line = Some (lvl, hdr) →
  parse_step st line =
    MkPState (if inSection st || truthy (currentSectionHeader st)
              then sections st ++ [close_section st] else sections st)
             hdr lvl [line] true.
Proof. unfold parse_step. by intros ->. Qed.

Lemma parse_step_other st line :
  match_heading line = None →
  parse_step st line =
    if inSection st
    then MkPState (sections st) (currentSectionHeader st)
                  (currentSectionLevel st) (currentContent st ++ [line]) true
    else st.
Proof. unfold parse_step. by intros ->. Qed.



End parser.

(** ** The lookups of the extractor *)

Section lookups.
Implicit Types (ss : list section) (h : jstring).

(** [find] returns the first section with the header. *)
Lemma find_section_Some ss h s :
  find_section h ss = Some s ↔
  ∃ i, ss !! i = Some s ∧ header s = h ∧
       ∀ j s', j < i → ss !! j = Some s' → header s' ≠ h.
Proof.
  unfold find_section. induction ss as [|s0 ss IH]; simpl.
  - split; [done | by intros (i & Hi & _)].
  - case_bool_decide as Hh.
    + split.
      * intros [= ->]. exists 0. split_and!; [done..|]. intros; lia.
      * intros ([|i] & Hi & Hs & Hfirst); [by injection Hi as -> |].
        exfalso. by apply (Hfirst 0 s0); [lia| |].
    + rewrite IH. split.
      * intros (i & Hi & Hs & Hfirst). exists (S i). split_and!; [done..|].
        intros [|j] s' Hj Hs'; [by injection Hs' as <- |].
        apply (Hfirst j); [lia|done].
      * intros ([|i] & Hi & Hs & Hfirst); [injection Hi as ->; done|].
        exists i. split_and!; [done..|]. intros j s' Hj Hs'.
        apply (Hfirst (S j)); [lia|done].
Qed.

Lemma find_section_None ss h :
  find_section h ss = None ↔ ∀ s, s ∈ ss → header s ≠ h.
Proof.
  unfold find_section. induction ss as [|s0 ss IH]; simpl.
  - split; [by intros _ s ?%elem_of_nil | done].
  - case_bool_decide as Hh.
    + split; [done|]. intros Hall. exfalso. apply (Hall s0); [left | done].
    + rewrite IH. split.
      * intros Hall s [->|Hs]%elem_of_cons; [done | by apply Hall].
      * intros Hall s Hs. apply Hall. by right.
Qed.
End lookups.

(** ** The sections the parser emits *)

Section parser_invariant.
Context (P : jstring → Prop).
Implicit Types (st : pstate) (line l : jstring) (lines : list jstring).

Lemma parse_inv_close st :
  parse_inv P st → inSection st = true → section_of_block P (close_section st).
Proof.
  intros [_ Hcur] Hin. rewrite Hin in Hcur.
  destruct Hcur as (h & body & Hc & Hh & Hbody & HP).
  exists h, body. unfold close_section. simpl. by rewrite Hc.
Qed.

Lemma parse_inv_step st line :
  P line → parse_inv P st → parse_inv P (parse_step st line).
Proof.
  intros Hline Hinv. destruct (match_heading line) as [[lvl hdr]|] eqn:Hm.
  - rewrite (parse_step_heading _ _ _ _ Hm). split; simpl.
    + destruct (inSection st) eqn:Hin; simpl.
      * apply Forall_app. split; [apply Hinv|].
        apply Forall_singleton. by apply parse_inv_close.
      * destruct Hinv as [Hss Hcur]. rewrite Hin in Hcur.
        by rewrite Hcur.
    + exists line, []. split_and!; [done | done | constructor |].
      by apply Forall_singleton.
  - rewrite (parse_step_other _ _ Hm). destruct (inSection st) eqn:Hin; [|done].
    destruct Hinv as [Hss Hcur]. rewrite Hin in Hcur.
    destruct Hcur as (h & body & Hc & Hh & Hbody & HP).
    split; simpl; [done|]. exists h, (body ++ [line]).
    split_and!; [by rewrite Hc | done | |].
    + apply Forall_app. split; [done|]. by apply Forall_singleton.
    + rewrite app_comm_cons. apply Forall_app. split; [done|].
      by apply Forall_singleton.
Qed.

Lemma parse_inv_loop lines :
  Forall P lines → parse_inv P (foldl parse_step pstate_init lines).
Proof.
  induction lines as [|l lines IH] using rev_ind.
  - intros _. split; simpl; [constructor | done].
  - intros [Hlines [Hl _]%Forall_cons]%Forall_app. rewrite foldl_app. cbn [foldl].
    apply parse_inv_step; [done | by apply IH].
Qed.

(** Every emitted section is a heading line with the lines that follow it,
    joined and right-trimmed. *)
Lemma parse_lines_blocks lines :
  Forall P lines → Forall (section_of_block P) (parse_lines lines).
Proof.
  intros Hinv%parse_inv_loop. unfold parse_lines, parse_finish.
  destruct (inSection _) eqn:Hin; simpl; [|apply Hinv].
  destruct (truthy _); [|apply Hinv].
  apply Forall_app. split; [apply Hinv|].
  apply Forall_singleton. by apply parse_inv_close.
Qed.
End parser_invariant.

Lemma parseSections_blocks markdown :
  Forall (section_of_block (λ _, True)) (parseSections markdown).
Proof. apply parse_lines_blocks. by apply Forall_true. Qed.

(** ** The checkbox grammar *)

Section checkbox.
Implicit Types (l t rest : jstring).

Lemma todo_test_unfold t :
  re_exec todoTestRegex t =
  if startsWith (u16 "- [") t then
    match drop 3 t with
    | c :: s1 =>
        if is_box_char c then
          if startsWith (u16 "]") s1 then Some (MatchResult 0 5 []) else None
        else None
    | [] => None
    end
  else None.
Proof.
  unfold todoTestRegex. simpl rseq. rewrite re_exec_anchored. reflexivity.
Qed.

Lemma todo_text_unfold t :
  re_exec todoTextRegex t =
  if startsWith (u16 "- [") t then
    match drop 3 t with
    | c :: s1 =>
        if is_box_char c then
          if startsWith (u16 "]") s1 then
            quant is_ws true 0 None 5 (drop 1 s1) (λ i2 s2,
              quant is_dot true 1 None i2 s2 (λ i3 s3,
                match s3 with
                | [] => Some (MatchResult 0 i3 [take (i3 - i2) s2])
                | _ :: _ => None
                end))
          else None
        else None
    | [] => None
    end
  else None.
Proof.
  unfold todoTextRegex. simpl rseq. rewrite re_exec_anchored. reflexivity.
Qed.

(** The two tests of the checkbox agree. *)
Lemma checkbox_rest_unfold t :
  checkbox_rest t =
  if startsWith (u16 "- [") t then
    match drop 3 t with
    | c :: s1 =>
        if is_box_char c then
          if startsWith (u16 "]") s1 then Some (drop 1 s1) else None
        else None
    | [] => None
    end
  else None.
Proof.
  unfold checkbox_rest, is_box_char.
  change (u16 "- [ ]") with [45;32;91;32;93]%N.
  change (u16 "- [x]") with [45;32;91;120;93]%N.
  change (u16 "- [") with [45;32;91]%N. change (u16 "]") with [93%N].
  destruct t as [|c0 [|c1 [|c2 [|c3 [|c4 t]]]]]; cbn [startsWith drop];
    rewrite ?andb_false_r, ?andb_true_r, ?orb_false_r; cbn [andb orb]; try done.
  all: try (by destruct (_ && _)).
  - destruct (_ && _); [|done]. by destruct (_ || _).
  - rewrite (N.eqb_sym c3 32), (N.eqb_sym c3 120).
    by destruct (45 =? c0)%N, (32 =? c1)%N, (91 =? c2)%N, (32 =? c3)%N,
      (120 =? c3)%N, (93 =? c4)%N.
Qed.
End checkbox.

Section checkbox_text.
Implicit Types (l t rest w x : jstring).

Lemma todo_regexes_checkbox t :
  match checkbox_rest t with
  | Some rest =>
      is_Some (re_exec todoTestRegex t) ∧
      re_exec todoTextRegex t = match_todo_text rest ∧
      ∃ box, t = box ++ rest
  | None => re_exec todoTestRegex t = None
  end.
Proof.
  rewrite todo_test_unfold, todo_text_unfold, checkbox_rest_unfold.
  destruct (startsWith (u16 "- [") t) eqn:Hs; [|done].
  destruct (drop 3 t) as [|c s1] eqn:Hd; [done|].
  destruct (is_box_char c); [|done].
  destruct (startsWith (u16 "]") s1) eqn:Hs1; [|done].
  split_and!; [done..|].
  exists (take 3 t ++ c :: take 1 s1).
  rewrite <- app_assoc. simpl. rewrite take_drop, <- Hd. by rewrite take_drop.
Qed.

Lemma match_todo_text_sound rest m :
  match_todo_text rest = Some m →
  ∃ w x, rest = w ++ x ∧ Forall (λ c, is_ws c = true) w ∧
         x ≠ [] ∧ Forall (λ c, is_dot c = true) x ∧ m_groups m = [x].
Proof.
  unfold match_todo_text.
  intros (j2 & _ & _ & Hlen2 & Hws & Hq)%quant_sound.
  apply quant_sound in Hq as (j3 & Hlo3 & _ & Hlen3 & Hdot & Hq).
  destruct (drop j3 _) eqn:Hend; [|done]. injection Hq as <-. simpl.
  assert (take j3 (drop j2 rest) = drop j2 rest) as Ht.
  { apply take_ge. apply (f_equal length) in Hend.
    rewrite length_drop in Hend. simpl in Hend. lia. }
  exists (take j2 rest), (drop j2 rest).
  rewrite Ht in Hdot.
  split_and!; [by rewrite take_drop | done | | done |].
  - intros E. rewrite E in Hlen3. simpl in Hlen3. lia.
  - rewrite <- Ht at 2. do 2 f_equal. lia.
Qed.

Lemma match_todo_text_complete w x :
  Forall (λ c, is_ws c = true) w → x ≠ [] → Forall (λ c, is_dot c = true) x →
  is_Some (match_todo_text (w ++ x)).
Proof.
  intros Hws Hx Hdot. unfold match_todo_text.
  apply (quant_complete _ _ _ _ _ _ _ (length w)); simpl; try done.
  - lia.
  - rewrite length_app. lia.
  - by rewrite take_app_length.
  - rewrite drop_app_length.
    apply (quant_complete _ _ _ _ _ _ _ (length x)); simpl; try done.
    + destruct x; [done | simpl; lia].
    + by rewrite firstn_all.
    + by rewrite drop_all.
Qed.

Lemma trim_no_trailing s :
  (∀ r c, s = r ++ [c] → is_ws c = false) → trim s = trimStart s.
Proof.
  intros Hlast. unfold trim.
  destruct (trimStart_spec s) as (w & Hs & _).
  destruct (trimStart s) as [|c r _] using rev_ind; [done|].
  apply trimEnd_snoc_not_ws. apply (Hlast (w ++ r)). by rewrite <- app_assoc.
Qed.

Lemma forallb_is_dot x : forallb is_dot x = true ↔ Forall (λ c, is_dot c = true) x.
Proof.
  induction x as [|c x IH]; simpl; [by split|].
  rewrite andb_true_iff, IH, Forall_cons. done.
Qed.

(** What one line contributes to the list of todos. *)
Lemma todo_line l :
  (if bool_decide (is_Some (re_exec todoTestRegex (trim l)))
   then if truthy (todo_text l) then [todo_text l] else []
   else [])
  = option_list (todo_entry l).
Proof.
  unfold todo_entry, todo_text.
  pose proof (todo_regexes_checkbox (trim l)) as Hcb.
  destruct (checkbox_rest (trim l)) as [rest|];
    [|rewrite Hcb; by rewrite bool_decide_eq_false_2 by by intros [? ?]].
  destruct Hcb as (Htest & -> & box & Ht).
  rewrite bool_decide_eq_true_2 by done.
  assert (Hlast : ∀ r c, rest = r ++ [c] → is_ws c = false).
  { intros r c ->. destruct (trim_spec l) as (_ & _ & _ & _ & _ & _ & Hl).
    apply (Hl (box ++ r)). by rewrite <- app_assoc. }
  destruct (match_todo_text rest) as [m|] eqn:Hm.
  - apply match_todo_text_sound in Hm as (w & x & -> & Hws & Hx & Hdot & ->).
    change ([x] !!! 0) with x.
    rewrite (trim_app_ws w x) by done.
    assert (trim x = trimStart x) as Hx'.
    { apply trim_no_trailing. intros r c ->. apply (Hlast (w ++ r)).
      by rewrite <- app_assoc. }
    assert (trim x ≠ []) as Hne.
    { rewrite Hx'. intros E. destruct (trimStart_spec x) as (w' & Hx2 & Hw' & _).
      rewrite E, app_nil_r in Hx2. subst w'.
      destruct x as [|c r _] using rev_ind; [done|].
      apply Forall_app in Hw' as [_ [Hc _]%Forall_cons].
      rewrite (Hlast (w ++ r) c) in Hc; [done | by rewrite <- app_assoc]. }
    assert (forallb is_dot (trim x) = true) as ->.
    { apply forallb_is_dot. rewrite Hx'.
      destruct (trimStart_spec x) as (w' & Hx2 & _). rewrite Hx2 in Hdot.
      by apply Forall_app in Hdot as [_ ?]. }
    by destruct (trim x).
  - simpl. destruct (truthy (trim rest) && forallb is_dot (trim rest)) eqn:E; [|done].
    exfalso. apply andb_true_iff in E as [Hne Hdot%forallb_is_dot].
    destruct (trim_spec rest) as (w1 & w2 & Hr & Hw1 & Hw2 & _).
    destruct w2 as [|c w2 _] using rev_ind.
    + rewrite app_nil_r in Hr.
      destruct (match_todo_text_complete w1 (trim rest)) as [m Hm'];
        [done | by destruct (trim rest) | done |].
      rewrite <- Hr in Hm'. congruence.
    + apply Forall_app in Hw2 as [_ [Hc _]%Forall_cons].
      rewrite (Hlast (w1 ++ trim rest ++ w2) c) in Hc; [done|].
      rewrite Hr at 1. by rewrite <- !app_assoc.
Qed.

(** The todos of a section, line by line. *)
Lemma todos_of_lines s : todos_of s = omap todo_entry (split_nl (content s)).
Proof.
  unfold todos_of. induction (split_nl (content s)) as [|l ls IH]; [done|].
  cbn [List.filter omap list_omap]. rewrite <- IH.
  pose proof (todo_line l) as Hl.
  destruct (bool_decide _); [|by destruct (todo_entry l)].
  cbn [fmap list_fmap List.filter].
  destruct (truthy (todo_text l)); by destruct (todo_entry l); simplify_eq/=.
Qed.
End checkbox_text.

Lemma checkbox_rest_Some t rest :
  checkbox_rest t = Some rest ↔
  t = u16 "- [ ]" ++ rest ∨ t = u16 "- [x]" ++ rest.
Proof.
  unfold checkbox_rest. split.
  - destruct (startsWith (u16 "- [ ]") t) eqn:H1.
    + apply startsWith_prefix in H1 as [r ->]. intros [= <-]. by left.
    + destruct (startsWith (u16 "- [x]") t) eqn:H2; [|done].
      apply startsWith_prefix in H2 as [r ->]. intros [= <-]. by right.
  - intros [-> | ->].
    + by rewrite startsWith_app.
    + rewrite (startsWith_app (u16 "- [x]")). by rewrite orb_true_r.
Qed.

Lemma todo_entry_Some l text :
  todo_entry l = Some text ↔
  ∃ rest, (trim l = u16 "- [ ]" ++ rest ∨ trim l = u16 "- [x]" ++ rest) ∧
          text = trim rest ∧ text ≠ [] ∧ Forall (λ c, is_dot c = true) text.
Proof.
  unfold todo_entry. split.
  - destruct (checkbox_rest (trim l)) as [rest|] eqn:Hcb; [|done].
    destruct (truthy (trim rest) && forallb is_dot (trim rest)) eqn:E; [|done].
    intros [= <-]. apply andb_true_iff in E as [Hne Hdot%forallb_is_dot].
    exists rest. split_and!; [by apply checkbox_rest_Some | done | | done].
    by destruct (trim rest).
  - intros (rest & Hcb%checkbox_rest_Some & -> & Hne & Hdot%forallb_is_dot).
    rewrite Hcb, Hdot. by destruct (trim rest).
Qed.

(** ** The banner *)

Section banner.
Implicit Types (s before d after : jstring) (i : nat).

Lemma banner_here_unfold i s :
  rmatch bannerRegex i s [] (λ i' _ caps, Some (MatchResult i i' caps)) =
  if startsWith banner_prefix s then
    quant is_dot false 1 None (i + length banner_prefix)
      (drop (length banner_prefix) s) (λ i' s',
        if startsWith banner_suffix s'
        then Some (MatchResult i (i' + length banner_suffix) [])
        else None)
  else None.
Proof. reflexivity. Qed.

(** The pattern tried at the start of [s]: the shortest date span wins. *)
Lemma banner_here i s :
  match rmatch bannerRegex i s [] (λ i' _ caps, Some (MatchResult i i' caps)) with
  | Some m =>
      ∃ d after, banner_match s [] d after ∧
        m = MatchResult i (i + length (banner_prefix ++ d ++ banner_suffix)) [] ∧
        ∀ d' after', banner_match s [] d' after' → length d ≤ length d'
  | None => ∀ d after, ¬ banner_match s [] d after
  end.
Proof.
  rewrite banner_here_unfold.
  destruct (startsWith banner_prefix s) eqn:Hpre.
  2: { intros d after (E & _). rewrite app_nil_l in E. rewrite E, startsWith_app in Hpre. done. }
  apply startsWith_prefix in Hpre as [s1 ->].
  rewrite drop_app_length.
  destruct (quant _ _ _ _ _ _ _) as [m|] eqn:Hq.
  - apply quant_lazy_first in Hq as (j & Hlo & _ & Hlen & Hdot & Hk & Hmin).
    destruct (startsWith banner_suffix (drop j s1)) eqn:Hsuf; [|done].
    injection Hk as <-. apply startsWith_prefix in Hsuf as [after Hafter].
    exists (take j s1), after. split_and!.
    + split_and!; [|by apply take_nonempty | done].
      by rewrite app_nil_l, <- Hafter, take_drop.
    + f_equal. rewrite !length_app, length_take_le by done.
      change (length banner_prefix) with 41. change (length banner_suffix) with 8. lia.
    + intros d' after' (E & Hd' & Hdot'). rewrite app_nil_l in E.
      apply app_inv_head in E. rewrite length_take_le by done.
      destruct (decide (j ≤ length d')) as [|Hlt]; [done|]. exfalso.
      specialize (Hmin (length d')). rewrite E, drop_app_length in Hmin.
      rewrite startsWith_app in Hmin. discriminate Hmin.
      split; [|lia]. destruct d'; [done | simpl; lia].
  - intros d after (E & Hd & Hdot). rewrite app_nil_l in E. apply app_inv_head in E.
    assert (is_Some (quant is_dot false 1 None (i + length banner_prefix) s1
      (λ i' s', if startsWith banner_suffix s'
                then Some (MatchResult i (i' + length banner_suffix) [])
                else None))) as [m Hm]; [|congruence].
    apply (quant_complete _ _ _ _ _ _ _ (length d)).
    + destruct d; [done | simpl; lia].
    + done.
    + rewrite E, length_app. lia.
    + by rewrite E, take_app_length.
    + by rewrite E, drop_app_length, startsWith_app.
Qed.

(** The search: the leftmost start wins, then the shortest date span. *)
Lemma exec_from_banner i s :
  match exec_from bannerRegex i s with
  | Some m =>
      ∃ before d after, banner_match s before d after ∧
        m = MatchResult (i + length before)
              (i + length before + length (banner_prefix ++ d ++ banner_suffix)) [] ∧
        ∀ before' d' after', banner_match s before' d' after' →
          length before < length before' ∨
          (length before = length before' ∧ length d ≤ length d')
  | None => ∀ before d after, ¬ banner_match s before d after
  end.
Proof.
  revert i. induction s as [|c s IH]; intros i; cbn [exec_from];
    pose proof (banner_here i) as Hhere.
  - specialize (Hhere []). destruct (rmatch _ _ _ _ _) as [m|].
    + destruct Hhere as (d & after & (E & _) & _). done.
    + intros before d after (E & _). by destruct before.
  - specialize (Hhere (c :: s)). destruct (rmatch _ _ _ _ _) as [m|].
    + destruct Hhere as (d & after & Hm & -> & Hmin).
      exists [], d, after. split_and!; [done | simpl; f_equal; lia |].
      intros [|c' before'] d' after' Hm'; [|left; simpl; lia].
      right. split; [done|]. by eapply Hmin.
    + specialize (IH (S i)). destruct (exec_from _ _ _) as [m|].
      * destruct IH as (before & d & after & (E & Hd & Hdot) & -> & Hmin).
        exists (c :: before), d, after. split_and!.
        -- split_and!; [by rewrite E | done..].
        -- simpl. f_equal; lia.
        -- intros [|c' before'] d' after' (E' & Hd' & Hdot').
           ++ exfalso. by apply (Hhere d' after').
           ++ injection E' as <- E'.
              destruct (Hmin before' d' after') as [?|[? ?]]; [done | |].
              ** left. simpl. lia.
              ** right. simpl. split; [lia|done].
      * intros [|c' before] d after (E & Hd & Hdot).
        -- by apply (Hhere d after).
        -- injection E as <- E. by apply (IH before d after).
Qed.

(** A replacement without dollar sign stands for itself. *)
Lemma get_substitution_no_dollar matched before after tmpl :
  DOLLAR ∉ tmpl → get_substitution matched before after tmpl = tmpl.
Proof.
  induction tmpl as [|c t IH]; [done|]. intros [Hc Ht]%not_elem_of_cons. simpl.
  destruct (N.eqb_spec c DOLLAR) as [->|_]; [done|]. by rewrite IH.
Qed.
End banner.

(** ** Parsing what [merge] has joined *)

Section reparse.
Implicit Types (s t w a b l h : jstring) (body ls : list jstring) (ss : list section).

Lemma trimStart_app_not_ws s w :
  trimStart s ≠ [] → trimStart (s ++ w) = trimStart s ++ w.
Proof.
  induction s as [|c s IH]; [done|]. simpl. by destruct (is_ws c).
Qed.

Lemma trim_app_ws_r s w :
  Forall (λ c, is_ws c = true) w → trim (s ++ w) = trim s.
Proof.
  intros Hw. unfold trim. destruct (trimStart s) as [|c r] eqn:E.
  - destruct (trimStart_spec s) as (w0 & Hs & Hw0 & _).
    rewrite E, app_nil_r in Hs. subst w0.
    rewrite trimStart_ws; [done|]. by apply Forall_app.
  - rewrite trimStart_app_not_ws by (by rewrite E). rewrite E.
    by apply trimEnd_app_ws.
Qed.

Lemma trim_trimEnd s : trim (trimEnd s) = trim s.
Proof.
  destruct (trimEnd_spec s) as (w & Hs & Hw & _).
  rewrite Hs at 2. by rewrite trim_app_ws_r.
Qed.

Lemma trimEnd_app_not_ws a b :
  trimEnd b ≠ [] → trimEnd (a ++ b) = a ++ trimEnd b.
Proof.
  intros Hb. destruct (trimEnd_spec b) as (w & Hs & Hw & Hlast).
  destruct (trimEnd b) as [|c r _] using rev_ind; [done|].
  rewrite Hs at 1. rewrite !app_assoc, trimEnd_app_ws by done.
  apply trimEnd_snoc_not_ws. by eapply Hlast.
Qed.

Lemma trimEnd_dot l :
  Forall (λ c, is_dot c = true) l → Forall (λ c, is_dot c = true) (trimEnd l).
Proof.
  intros Hl. destruct (trimEnd_spec l) as (w & Hs & _).
  rewrite Hs in Hl. by apply Forall_app in Hl as [? _].
Qed.

Lemma dot_no_lf l : Forall (λ c, is_dot c = true) l → LF ∉ l.
Proof.
  intros Hl Hin. rewrite Forall_forall in Hl. by apply Hl in Hin.
Qed.

(** Right-trimming a heading line with a non-empty header gives a heading
    line with the same level and header. *)
Lemma heading_trimEnd h lvl hdr :
  match_heading h = Some (lvl, hdr) → hdr ≠ [] →
  match_heading (trimEnd h) = Some (lvl, hdr).
Proof.
  intros [(w & t & Hl) ->]%match_heading_Some Hne.
  pose proof Hl as (-> & Hlvl & Hw & Hws & Ht & Hdot).
  rewrite <- (heading_line_header _ _ _ _ Hl) in *.
  assert (trimEnd t ≠ []) as Ht'.
  { intros E%trimEnd_nil_ws. unfold trim in Hne.
    by rewrite trimStart_ws in Hne. }
  assert (heading_line (trimEnd (replicate lvl HASH ++ w ++ t)) lvl w (trimEnd t)) as Hl'.
  { rewrite !app_assoc, trimEnd_app_not_ws, <- !app_assoc by done.
    split_and!; try done; try lia. by apply trimEnd_dot. }
  apply match_heading_Some. split; [by eauto|].
  by rewrite <- (heading_line_header _ _ _ _ Hl'), trim_trimEnd.
Qed.

(** Right-trimming a line that is no heading line gives no heading line, as
    long as the line holds no line terminator. *)
Lemma not_heading_trimEnd l :
  match_heading l = None → Forall (λ c, is_dot c = true) l →
  match_heading (trimEnd l) = None.
Proof.
  intros Hl Hdot. destruct (match_heading (trimEnd l)) as [[lvl hdr]|] eqn:Hm; [|done].
  apply match_heading_Some in Hm as [(w & t & E & Hlvl & Hw & Hws & Ht & Hdt) _].
  destruct (trimEnd_spec l) as (w2 & Hs & Hw2 & _).
  rewrite match_heading_None in Hl. destruct (Hl lvl w (t ++ w2)).
  split_and!; [| lia | lia | done | done | |].
  - rewrite Hs at 1. rewrite E. by rewrite <- !app_assoc.
  - by destruct t.
  - apply Forall_app. split; [done|]. rewrite Hs in Hdot.
    by apply Forall_app in Hdot as [_ ?].
Qed.

(** The lines of the content of a block. *)
Lemma block_content_lines h body lvl hdr :
  match_heading h = Some (lvl, hdr) → hdr ≠ [] →
  Forall (λ l, match_heading l = None) body →
  Forall (λ l, Forall (λ c, is_dot c = true) l) (h :: body) →
  ∃ h' body',
    split_nl (trimEnd (join [LF] (h :: body))) = h' :: body' ∧
    match_heading h' = Some (lvl, hdr) ∧
    Forall (λ l, match_heading l = None) body'.
Proof.
  intros Hh Hne. induction body as [|l body IH] using rev_ind; intros Hbody Hdot.
  - exists (trimEnd h), []. apply Forall_cons in Hdot as [Hdot _].
    split_and!; [|by apply heading_trimEnd | done].
    simpl. apply split_nl_no_lf, dot_no_lf. by apply trimEnd_dot.
  - apply Forall_app in Hbody as [Hbody [Hl _]%Forall_cons].
    rewrite app_comm_cons in Hdot.
    apply Forall_app in Hdot as [Hdot [Hdl _]%Forall_cons].
    rewrite app_comm_cons, join_snoc by done.
    destruct (decide (trimEnd l = [])) as [El|El].
    + replace ([LF] ++ l) with (LF :: l) by done.
      rewrite trimEnd_app_ws; [by apply IH|].
      constructor; [done | by apply trimEnd_nil_ws].
    + rewrite app_assoc, trimEnd_app_not_ws by done.
      rewrite <- app_assoc, <- join_snoc by done.
      exists h, (body ++ [trimEnd l]). split_and!; [|done|].
      * rewrite <- app_comm_cons. apply split_nl_join; [done|].
        rewrite app_comm_cons. apply Forall_app. split.
        -- eapply Forall_impl; [done|]. intros ?. apply dot_no_lf.
        -- apply Forall_singleton. by apply dot_no_lf, trimEnd_dot.
      * apply Forall_app. split; [done|].
        apply Forall_singleton. by apply not_heading_trimEnd.
Qed.

(** The lines of a text whose only line terminator is the line feed hold no
    line terminator. *)
Lemma only_lf_breaks_lines s :
  only_lf_breaks s → Forall (λ l, Forall (λ c, is_dot c = true) l) (split_nl s).
Proof.
  unfold only_lf_breaks. induction s as [|c s IH]; simpl.
  - by repeat constructor.
  - intros [Hc Hs]%Forall_cons. specialize (IH Hs).
    destruct (N.eqb_spec c LF) as [->|Hne]; [by constructor|].
    assert (is_dot c = true) as Hdot.
    { unfold is_dot. destruct (is_line_terminator c); [by destruct Hne; apply Hc | done]. }
    destruct (split_nl s) as [|l ls]; [by repeat constructor|].
    apply Forall_cons in IH as [Hl Hls]. constructor; [|done].
    by constructor.
Qed.

(** Under that condition every parsed section with a header is well
    formed. *)
Lemma parseSections_well_formed markdown (sec : section) :
  only_lf_breaks markdown → sec ∈ parseSections markdown → header sec ≠ [] →
  well_formed_section sec.
Proof.
  intros Hlf Hs Hne.
  pose proof (parse_lines_blocks _ _ (only_lf_breaks_lines _ Hlf)) as Hb.
  rewrite Forall_forall in Hb.
  destruct (Hb sec Hs) as (h & body & Hc & Hh & Hbody & Hdot).
  destruct (block_content_lines h body _ _ Hh Hne Hbody Hdot)
    as (h' & body' & Hsplit & Hh' & Hbody').
  exists h', body'. rewrite Hc. split_and!; [done..| apply trimEnd_idemp | done].
Qed.
End reparse.

Section roundtrip.
Implicit Types (st : pstate) (h l : jstring) (body : list jstring)
  (s : section) (ss : list section).

(** The loop over a heading line and the lines that follow it. *)
Lemma parse_block st h body lvl hdr :
  match_heading h = Some (lvl, hdr) →
  Forall (λ l, match_heading l = None) body →
  foldl parse_step st (h :: body) =
    MkPState (if inSection st || truthy (currentSectionHeader st)
              then sections st ++ [close_section st] else sections st)
             hdr lvl (h :: body) true.
Proof.
  intros Hh. induction body as [|l body IH] using rev_ind; intros Hbody.
  - by apply parse_step_heading.
  - apply Forall_app in Hbody as [Hbody [Hl _]%Forall_cons].
    rewrite app_comm_cons, foldl_app, IH by done. cbn [foldl].
    by rewrite parse_step_other.
Qed.

(** The lines of the output of [merge]. *)
Lemma merged_lines ss :
  ss ≠ [] →
  split_nl (join [LF; LF] (content <$> ss) ++ [LF]) = concat (section_lines <$> ss).
Proof.
  induction ss as [|s ss IH]; [done|]. intros _. destruct ss as [|s' ss].
  - simpl. rewrite app_nil_r. apply split_nl_app_lf.
  - specialize (IH ltac:(done)). rewrite !fmap_cons in *. rewrite join_cons.
    cbn [concat] in *. rewrite <- IH. rewrite <- !app_assoc.
    change ([LF; LF] ++ ?x) with (LF :: LF :: x).
    rewrite split_nl_app_lf. unfold section_lines. by rewrite <- app_assoc.
Qed.

Lemma section_lines_content s :
  trimEnd (content s) = content s →
  trimEnd (join [LF] (section_lines s)) = content s.
Proof.
  intros Ht. unfold section_lines.
  destruct (split_nl_cons_inv (content s)) as (l & ls & E).
  rewrite join_snoc by (by rewrite E). rewrite join_split_nl.
  rewrite trimEnd_app_ws; [done|]. by repeat constructor.
Qed.

(** The state of the loop after the lines of well-formed sections. *)
Lemma parse_merged_state ss s :
  Forall well_formed_section (ss ++ [s]) →
  foldl parse_step pstate_init (concat (section_lines <$> (ss ++ [s])))
  = MkPState ss (header s) (level s) (section_lines s) true.
Proof.
  revert s. induction ss as [|s' ss IH] using rev_ind; intros s Hwf.
  - apply Forall_cons in Hwf as [(h & body & Hsplit & Hh & Hbody & _) _].
    change (concat (section_lines <$> [] ++ [s])) with (section_lines s ++ []).
    rewrite app_nil_r.
    assert (section_lines s = h :: body ++ [[]]) as ->
      by (unfold section_lines; by rewrite Hsplit).
    rewrite (parse_block _ _ _ _ _ Hh); [done|].
    apply Forall_app. split; [done|]. by apply Forall_singleton.
  - apply Forall_app in Hwf as [Hwf [Hs _]%Forall_cons].
    rewrite fmap_app, concat_app, foldl_app, IH by done.
    destruct Hs as (h & body & Hsplit & Hh & Hbody & _).
    change (concat (section_lines <$> [s])) with (section_lines s ++ []).
    rewrite app_nil_r.
    assert (section_lines s = h :: body ++ [[]]) as ->
      by (unfold section_lines; by rewrite Hsplit).
    rewrite (parse_block _ _ _ _ _ Hh).
    2: { apply Forall_app. split; [done|]. by apply Forall_singleton. }
    simpl. f_equal. f_equal. unfold close_section. simpl.
    apply Forall_app in Hwf as [_ [(_ & _ & _ & _ & _ & Ht & _) _]%Forall_cons].
    rewrite section_lines_content by done. by destruct s'.
Qed.

(** Parsing the joined contents of well-formed sections gives the sections
    back. *)
Lemma parse_joined_sections ss :
  Forall well_formed_section ss →
  parseSections (join [LF; LF] (content <$> ss) ++ [LF]) = ss.
Proof.
  destruct ss as [|s ss _] using rev_ind; [done|]. intros Hwf.
  unfold parseSections, parse_lines.
  rewrite merged_lines by (by destruct ss).
  rewrite parse_merged_state by done.
  apply Forall_app in Hwf as [_ [(_ & _ & _ & _ & _ & Ht & Hne) _]%Forall_cons].
  unfold parse_finish, close_section. simpl.
  destruct (header s) eqn:Hh; [done|]. simpl.
  rewrite section_lines_content by done. rewrite <- Hh. by destruct s.
Qed.

(** The sections that [merge] selects are well formed when the only line
    terminator of the two documents is the line feed and no section of the
    new document has an empty header. *)
Lemma finalSections_well_formed existingContent newContent :
  only_lf_breaks existingContent → only_lf_breaks newContent →
  Forall (λ s, header s ≠ []) (parseSections newContent) →
  Forall well_formed_section (finalSections existingContent newContent).
Proof.
  intros He Hn Hne. rewrite finalSections_eq. apply Forall_fmap, Forall_forall.
  intros s Hs. rewrite Forall_forall in Hne. specialize (Hne s Hs). simpl.
  unfold select_section. case_bool_decide; [|by eapply parseSections_well_formed].
  destruct (build_map _ !! header s) as [es|] eqn:Hl;
    [|by eapply parseSections_well_formed].
  apply build_map_Some in Hl as (j & Hj & Hh & _).
  apply (parseSections_well_formed existingContent); [done | | by rewrite Hh].
  by eapply list_elem_of_lookup_2.
Qed.
End roundtrip.

Lemma only_lf_breaks_check (s : jstring) :
  forallb (λ c, implb (is_line_terminator c) (c =? LF)%N) s = true →
  only_lf_breaks s.
Proof.
  unfold only_lf_breaks. induction s as [|c s IH]; simpl; [done|].
  intros [Hc Hs]%andb_true_iff. constructor; [|by apply IH].
  intros Hlt. rewrite Hlt in Hc. by apply N.eqb_eq in Hc.
Qed.

Lemma headers_not_empty_check (ss : list section) :
  forallb (λ s, truthy (header s)) ss = true → Forall (λ s, header s ≠ []) ss.
Proof.
  induction ss as [|s ss IH]; simpl; [done|].
  intros [Hs Hss]%andb_true_iff. constructor; [|by apply IH].
  by destruct (header s).
Qed.

(** ** The capture groups of a match *)

Section capture_groups.
Implicit Types (line t : jstring) (m : match_result).


End capture_groups.

(** The date is spliced into the replacement string of
    [String.prototype.replace], where [$$], [$&], [$`] and [$'] are
    replacement patterns: a date is written as it is when it holds no
    dollar sign, as the dates of the caller do.  With the date [$$] the date
    span would become a single dollar sign. *)
Example updateTimestamp_dollar_date :
  updateTimestamp banner_2025 (u16 "$$")
    = doc ["> Auto-generated by flight-dispatcher on $. Re-run `npx flight-dispatcher` to update.";
           ""; "## Git Hooks"; "Re-run the installer."].
Proof. by vm_compute. Qed.

(** * The claims *)

(** C1. A section of the existing document whose header no section of the new
    document carries is meant to be appended to the output.  The loop that
    should do so guards the push with [existingSection.header !==
    existingSection.header], which never holds: on the input below the custom
    section of the existing document is lost, and in general the output has
    exactly one section per section of the new document. *)
Theorem merge_drops_custom_section :
  parseSections (doc ["## Custom"; "mine"])
    = [MkSection (u16 "Custom") 2 (doc ["## Custom"; "mine"])] ∧
  header <$> parseSections (doc ["## Tech Stack"; "TS"]) = [u16 "Tech Stack"] ∧
  merge (doc ["## Custom"; "mine"]) (doc ["## Tech Stack"; "TS"])
    = doc ["## Tech Stack"; "TS"; ""] ∧
  ∀ existingText newText,
    length (finalSections existingText newText) = length (parseSections newText).
Proof.
  split_and!; [by vm_compute..|].
  intros existingText newText. by rewrite finalSections_eq, length_fmap.
Qed.

(** C2. Where a section of the new document carries a header of the
    preservation policy, [merge] emits at its position the section of the
    existing document with that header (the last one, should there be
    several), heading line included; when the existing document has no
    section with that header, the new section is emitted unchanged. *)
Theorem merge_preserved_section existingText newText i newSection :
  parseSections newText !! i = Some newSection →
  header newSection ∈ PRESERVED_SECTIONS →
  merge existingText newText
    = join [LF; LF] (content <$> finalSections existingText newText) ++ [LF] ∧
  length (finalSections existingText newText) = length (parseSections newText) ∧
  ((∃ s, s ∈ parseSections existingText ∧ header s = header newSection) →
   ∃ j existing,
     parseSections existingText !! j = Some existing ∧
     header existing = header newSection ∧
     (∀ j' s', j < j' → parseSections existingText !! j' = Some s' →
               header s' ≠ header newSection) ∧
     finalSections existingText newText !! i = Some existing ∧
     ∃ h body,
       content existing = trimEnd (join [LF] (h :: body)) ∧
       match_heading h = Some (level existing, header existing)) ∧
  ((∀ s, s ∈ parseSections existingText → header s ≠ header newSection) →
   finalSections existingText newText !! i = Some newSection).
Proof.
  intros Hi Hp. split_and!; [done | | rewrite finalSections_eq..].
  - by rewrite finalSections_eq, length_fmap.
  - intros (s & Hs & Hh).
    destruct (build_map (parseSections existingText) !! header newSection)
      as [existing|] eqn:Hl.
    + pose proof Hl as (j & Hj & Hhe & Hlast)%build_map_Some.
      exists j, existing. split_and!; [done..| |].
      * rewrite list_lookup_fmap, Hi. simpl. unfold select_section.
        rewrite bool_decide_eq_true_2 by done. by rewrite Hl.
      * pose proof (parseSections_blocks existingText) as Hb.
        rewrite Forall_forall in Hb.
        destruct (Hb existing) as (h & body & Hc & Hm & _).
        { by eapply list_elem_of_lookup_2. }
        by exists h, body.
    + exfalso. rewrite build_map_None in Hl. by apply (Hl s).
  - intros Hnone%build_map_None.
    rewrite list_lookup_fmap, Hi. simpl. unfold select_section.
    rewrite bool_decide_eq_true_2 by done. by rewrite Hnone.
Qed.

Lemma merge_preserved_section_witness :
  finalSections (doc ["## About This Project"; "Hello"])
    (doc ["## About This Project"; "Goodbye"; "## Tech Stack"; "TS"]) !! 0
  = Some (MkSection (u16 "About This Project") 2
            (doc ["## About This Project"; "Hello"])).
Proof.
  destruct (merge_preserved_section (doc ["## About This Project"; "Hello"])
              (doc ["## About This Project"; "Goodbye"; "## Tech Stack"; "TS"]) 0
              (MkSection (u16 "About This Project") 2
                 (doc ["## About This Project"; "Goodbye"])))
    as (_ & _ & Hex & _).
  - by vm_compute.
  - apply list_elem_of_In. vm_compute. by left.
  - destruct Hex as (j & existing & Hj & _ & _ & Hfinal & _).
    + eexists. split; [apply list_elem_of_In; vm_compute; left; reflexivity|].
      by vm_compute.
    + rewrite Hfinal. destruct j as [|j]; [|by vm_compute in Hj].
      vm_compute in Hj. by rewrite <- Hj.
Defined.

(** C3, as stated, fails.  A line that ends with a carriage return is no
    heading line, since [.] matches no line terminator; as the last line of
    a section it is right-trimmed, and in the output of [merge] it is a
    heading line: the parsed output has a header that the parsed new document
    has not.  And a heading line with nothing but white space after the
    hashes gives a section with an empty header that the parsed output has
    not. *)
Lemma merge_header_order_counterexample :
  header <$> parseSections cr_line_doc = [u16 "X"] ∧
  header <$> parseSections (merge (u16 "# Old") cr_line_doc) = [u16 "X"; u16 "A"] ∧
  header <$> parseSections (merge (u16 "# Old") cr_line_doc)
    ≠ header <$> parseSections cr_line_doc ∧
  header <$> parseSections blank_heading_doc = [[]; u16 "A"] ∧
  header <$> parseSections (merge (u16 "# Old") blank_heading_doc) = [u16 "A"] ∧
  header <$> parseSections (merge (u16 "# Old") blank_heading_doc)
    ≠ header <$> parseSections blank_heading_doc.
Proof. split_and!; by vm_compute. Qed.

(** C3, amended.  The headers of the sections that [merge] selects are the
    headers of the sections of the new document, in the same order, whatever
    the existing document; a section of the new document whose header is not
    in the preservation policy is selected as it is; and the parsed output
    has the same sequence of headers as the parsed new document when the only
    line terminator of the two documents is the line feed and no section of
    the new document has an empty header. *)
Theorem merge_template_order existingText newText :
  header <$> finalSections existingText newText
    = header <$> parseSections newText ∧
  (∀ i newSection,
     parseSections newText !! i = Some newSection →
     header newSection ∉ PRESERVED_SECTIONS →
     finalSections existingText newText !! i = Some newSection) ∧
  (only_lf_breaks existingText → only_lf_breaks newText →
   Forall (λ s, header s ≠ []) (parseSections newText) →
   header <$> parseSections (merge existingText newText)
     = header <$> parseSections newText).
Proof.
  split_and!.
  - apply finalSections_headers.
  - intros i newSection Hi Hp. rewrite finalSections_eq, list_lookup_fmap, Hi.
    simpl. unfold select_section. by rewrite bool_decide_eq_false_2.
  - intros He Hn Hne. unfold merge.
    rewrite parse_joined_sections by (by apply finalSections_well_formed).
    apply finalSections_headers.
Qed.

Lemma merge_template_order_witness :
  finalSections (doc ["## Tech Stack"; "old"; "## About This Project"; "mine"])
    (doc ["## About This Project"; "new"; "## Tech Stack"; "TS"]) !! 1
  = Some (MkSection (u16 "Tech Stack") 2 (doc ["## Tech Stack"; "TS"])) ∧
  header <$> parseSections
    (merge (doc ["## Tech Stack"; "old"; "## About This Project"; "mine"])
       (doc ["## About This Project"; "new"; "## Tech Stack"; "TS"]))
  = [u16 "About This Project"; u16 "Tech Stack"].
Proof.
  destruct (merge_template_order
    (doc ["## Tech Stack"; "old"; "## About This Project"; "mine"])
    (doc ["## About This Project"; "new"; "## Tech Stack"; "TS"]))
    as (_ & Hfresh & Hparsed).
  split.
  - apply Hfresh; [by vm_compute|].
    intros Hin. apply list_elem_of_In in Hin. vm_compute in Hin.
    by repeat destruct Hin as [Hin|Hin].
  - rewrite Hparsed; [by vm_compute | | |].
    + apply only_lf_breaks_check. by vm_compute.
    + apply only_lf_breaks_check. by vm_compute.
    + apply headers_not_empty_check. by vm_compute.
Defined.

(** C4, as stated, fails: the extractor looks sections up with [find], which
    returns the first match.  With two sections named About This Project,
    the description comes from the first one, not from the last. *)
Lemma extract_last_match_counterexample :
  last_with_header (u16 "About This Project") (parseSections two_abouts) 1
    (MkSection (u16 "About This Project") 2 (doc ["## About This Project"; "second"])) ∧
  description_of
    (MkSection (u16 "About This Project") 2 (doc ["## About This Project"; "second"]))
    = u16 "second" ∧
  description (extractPreservedData two_abouts) = u16 "first" ∧
  description (extractPreservedData two_abouts)
    ≠ description_of
        (MkSection (u16 "About This Project") 2 (doc ["## About This Project"; "second"])).
Proof.
  split_and!; [|by vm_compute..].
  split_and!; [by vm_compute..|].
  intros [|[|[|j]]] s' Hj Hs'; try lia; by vm_compute in Hs'.
Qed.

(** C4, amended.  Each of the three headers is resolved to the first section
    of the document with that header; the fields are computed from that
    section, and a header that no section carries gives the empty default. *)
Theorem extract_first_match existingContent :
  (∀ i s,
     first_with_header (u16 "About This Project") (parseSections existingContent) i s →
     description (extractPreservedData existingContent) = description_of s) ∧
  (∀ i s,
     first_with_header (u16 "Architecture Rules") (parseSections existingContent) i s →
     architectureRules (extractPreservedData existingContent) = rules_of s) ∧
  (∀ i s,
     first_with_header (u16 "Pending TODOs") (parseSections existingContent) i s →
     todos (extractPreservedData existingContent) = todos_of s) ∧
  ((∀ s, s ∈ parseSections existingContent → header s ≠ u16 "About This Project") →
     description (extractPreservedData existingContent) = []) ∧
  ((∀ s, s ∈ parseSections existingContent → header s ≠ u16 "Architecture Rules") →
     architectureRules (extractPreservedData existingContent) = []) ∧
  ((∀ s, s ∈ parseSections existingContent → header s ≠ u16 "Pending TODOs") →
     todos (extractPreservedData existingContent) = []).
Proof.
  unfold extractPreservedData. simpl.
  split_and!.
  1-3: intros i s Hfirst;
    assert (find_section (header s) (parseSections existingContent) = Some s) as Hf
      by (apply find_section_Some; exists i; destruct Hfirst as (? & <- & ?); done);
    destruct Hfirst as (_ & Hh & _); rewrite Hh in Hf; by rewrite Hf.
  all: intros Hnone%find_section_None; by rewrite Hnone.
Qed.

Lemma extract_first_match_witness :
  description (extractPreservedData two_abouts) = u16 "first".
Proof.
  apply (proj1 (extract_first_match two_abouts) 0
           (MkSection (u16 "About This Project") 2
              (doc ["## About This Project"; "first"]))).
  split_and!; [by vm_compute..|]. intros j s' Hj. lia.
Defined.

(** C5, as stated, fails: the separator of the parser is [\s], which matches
    every white space character and every line terminator.  A line with a
    no-break space after the hash is outside the documented grammar and
    opens a section all the same. *)
Lemma heading_separator_counterexample :
  re_exec documentedHeaderRegex (u16 "#" ++ [160%N] ++ u16 "Title") = None ∧
  parseSections (u16 "#" ++ [160%N] ++ u16 "Title")
    = [MkSection (u16 "Title") 1 (u16 "#" ++ [160%N] ++ u16 "Title")].
Proof. split; by vm_compute. Qed.

(** C5, amended.  A line opens a section exactly when it is made of 1 to 6
    hashes, then at least one character of the class [\s] (white space or
    line terminator), then at least one character and no line terminator, up
    to the end of the line.  The section then has the number of hashes as its
    level and the text after the hashes, trimmed, as its header.  A line
    with 7 hashes or more, or without white space after the hashes, opens
    no section. *)
Theorem heading_grammar_opens_section st line :
  (∀ lvl w t, heading_line line lvl w t →
     parse_step st line =
       MkPState (if inSection st || truthy (currentSectionHeader st)
                 then sections st ++ [close_section st] else sections st)
                (trim (drop lvl line)) lvl [line] true) ∧
  ((∀ lvl w t, ¬ heading_line line lvl w t) →
     parse_step st line =
       if inSection st
       then MkPState (sections st) (currentSectionHeader st)
              (currentSectionLevel st) (currentContent st ++ [line]) true
       else st) ∧
  ((∃ lvl w t, heading_line line lvl w t) ∨ (∀ lvl w t, ¬ heading_line line lvl w t)) ∧
  (∀ k rest, 7 ≤ k → line = replicate k HASH ++ rest →
     ∀ lvl w t, ¬ heading_line line lvl w t) ∧
  (∀ k rest, line = replicate k HASH ++ rest →
     match rest with [] => True | c :: _ => c ≠ HASH ∧ is_ws c = false end →
     ∀ lvl w t, ¬ heading_line line lvl w t).
Proof.
  split_and!.
  - intros lvl w t Hl. apply parse_step_heading, match_heading_Some. eauto.
  - intros Hno. by apply parse_step_other, match_heading_None.
  - destruct (match_heading line) as [[lvl hdr]|] eqn:Hm.
    + left. apply match_heading_Some in Hm as [(w & t & Hl) _]. eauto.
    + right. by apply match_heading_None.
  - intros k rest Hk -> lvl w t (E & Hlvl & Hw & Hws & _).
    apply (hash_run_lt _ _ _ _ _ E); [lia | done..].
  - intros k rest -> Hrest lvl w t (E & Hlvl & Hw & Hws & _).
    destruct (Nat.lt_trichotomy lvl k) as [Hlt|[->|Hgt]].
    + by apply (hash_run_lt _ _ _ _ _ E).
    + apply hash_run_eq in E as ->. destruct w as [|c w]; [done|].
      apply Forall_cons in Hws as [Hc _]. simpl in Hrest.
      destruct Hrest; congruence.
    + destruct (hash_run_gt _ _ _ _ E Hgt) as [rest' ->]. by destruct Hrest.
Qed.

Lemma heading_grammar_opens_section_witness :
  parse_step pstate_init (u16 "## Title  ")
  = MkPState [] (u16 "Title") 2 [u16 "## Title  "] true.
Proof.
  apply (proj1 (heading_grammar_opens_section pstate_init (u16 "## Title  "))
           2 (u16 " ") (u16 "Title  ")).
  split_and!; [by vm_compute | lia | lia | done | | done |];
    apply Forall_forall; intros c Hc; apply list_elem_of_In in Hc;
    vm_compute in Hc; by repeat destruct Hc as [<-|Hc].
Defined.

(** C6, as stated, fails: the text of a todo is captured with [(.+)$], and
    [.] matches no line terminator.  A checkbox line whose text holds a
    carriage return (or U+2028, U+2029) passes the filter, has a non-empty
    text, and is dropped all the same. *)
Lemma todos_line_terminator_counterexample :
  parseSections todo_with_cr = [MkSection (u16 "Pending TODOs") 2 todo_with_cr] ∧
  omap documented_todo_entry (split_nl todo_with_cr)
    = [u16 "a" ++ [CR] ++ u16 "b"] ∧
  todos (extractPreservedData todo_with_cr) = [] ∧
  todos (extractPreservedData todo_with_cr)
    ≠ omap documented_todo_entry (split_nl todo_with_cr).
Proof. split_and!; by vm_compute. Qed.

(** C6, amended.  The todos are taken from the lines of the first section
    named Pending TODOs whose trimmed form starts with [- [ ]] or [- [x]]
    (lowercase only), in the order of the lines: each gives the text after
    the checkbox, trimmed, and is left out when that text is empty or holds
    a line terminator (carriage return, U+2028, U+2029). *)
Theorem todos_checkbox_lines existingContent i s :
  first_with_header (u16 "Pending TODOs") (parseSections existingContent) i s →
  todos (extractPreservedData existingContent)
    = omap todo_entry (split_nl (content s)) ∧
  (∀ l text,
     todo_entry l = Some text ↔
     ∃ rest, (trim l = u16 "- [ ]" ++ rest ∨ trim l = u16 "- [x]" ++ rest) ∧
             text = trim rest ∧ text ≠ [] ∧ Forall (λ c, is_dot c = true) text) ∧
  (∀ l rest, trim l = u16 "- [X]" ++ rest → todo_entry l = None).
Proof.
  intros (Hi & Hh & Hfirst). split_and!.
  - unfold extractPreservedData. simpl.
    assert (find_section (u16 "Pending TODOs") (parseSections existingContent) = Some s)
      as ->; [|simpl; apply todos_of_lines].
    apply find_section_Some. by exists i.
  - apply todo_entry_Some.
  - intros l rest Hl. unfold todo_entry, checkbox_rest. by rewrite Hl.
Qed.

Lemma todos_checkbox_lines_witness :
  todos (extractPreservedData
           (doc ["## Pending TODOs"; "- [ ] A"; "- [X] no"; "  - [x]   B  "; "- [ ]"; "- C"]))
  = [u16 "A"; u16 "B"].
Proof.
  destruct (todos_checkbox_lines
    (doc ["## Pending TODOs"; "- [ ] A"; "- [X] no"; "  - [x]   B  "; "- [ ]"; "- C"])
    0 (MkSection (u16 "Pending TODOs") 2
         (doc ["## Pending TODOs"; "- [ ] A"; "- [X] no"; "  - [x]   B  "; "- [ ]"; "- C"])))
    as [-> _]; [|by vm_compute].
  split_and!; [by vm_compute..|]. intros j s' Hj. lia.
Defined.

(** C7, as stated, fails.  A heading line with nothing but white space after
    the hashes opens a section with an empty header, whose content is
    right-trimmed to the hashes alone: in the output of [merge] that
    content is no heading line any more, and the section is lost on
    parsing.  And a last line of a section that ends with a carriage return
    is right-trimmed into a heading line, which parsing the output takes for
    one more section. *)
Lemma merge_reparse_counterexample :
  finalSections (u16 "# Old") blank_heading_doc
    = [MkSection [] 1 (u16 "#"); MkSection (u16 "A") 1 (u16 "# A")] ∧
  merge (u16 "# Old") blank_heading_doc = doc ["#"; ""; "# A"; ""] ∧
  parseSections (merge (u16 "# Old") blank_heading_doc)
    = [MkSection (u16 "A") 1 (u16 "# A")] ∧
  join [LF; LF] (content <$> parseSections (merge (u16 "# Old") blank_heading_doc))
    ++ [LF] = doc ["# A"; ""] ∧
  parseSections (merge (u16 "# Old") blank_heading_doc)
    ≠ finalSections (u16 "# Old") blank_heading_doc ∧
  join [LF; LF] (content <$> parseSections (merge (u16 "# Old") blank_heading_doc))
    ++ [LF] ≠ merge (u16 "# Old") blank_heading_doc ∧
  finalSections (u16 "# Old") cr_line_doc
    = [MkSection (u16 "X") 1 (doc ["# X"; "# A"])] ∧
  parseSections (merge (u16 "# Old") cr_line_doc)
    = [MkSection (u16 "X") 1 (u16 "# X"); MkSection (u16 "A") 1 (u16 "# A")] ∧
  parseSections (merge (u16 "# Old") cr_line_doc)
    ≠ finalSections (u16 "# Old") cr_line_doc.
Proof. split_and!; by vm_compute. Qed.

(** C7, amended.  The output of [merge] is the contents of the selected
    sections joined by a blank line, with a line feed at the end.  When the
    only line terminator of the two documents is the line feed (no carriage
    return, U+2028 or U+2029) and no section of the new document has an
    empty header, parsing the output gives exactly the selected sections,
    and joining the parsed sections again gives the output back. *)
Theorem merge_parse_roundtrip existingText newText :
  only_lf_breaks existingText → only_lf_breaks newText →
  Forall (λ s, header s ≠ []) (parseSections newText) →
  merge existingText newText
    = join [LF; LF] (content <$> finalSections existingText newText) ++ [LF] ∧
  parseSections (merge existingText newText) = finalSections existingText newText ∧
  join [LF; LF] (content <$> parseSections (merge existingText newText)) ++ [LF]
    = merge existingText newText.
Proof.
  intros He Hn Hne.
  assert (parseSections (merge existingText newText)
          = finalSections existingText newText) as Hparse.
  { unfold merge. by apply parse_joined_sections, finalSections_well_formed. }
  split_and!; [done | done | by rewrite Hparse].
Qed.

Lemma merge_parse_roundtrip_witness :
  parseSections
    (merge (doc ["## About This Project"; "Hello"; ""; "## Custom"; "x"])
           (doc ["# Title"; ""; "## About This Project"; "Goodbye"; "## Tech Stack"; "TS"; ""]))
  = [MkSection (u16 "Title") 1 (u16 "# Title");
     MkSection (u16 "About This Project") 2 (doc ["## About This Project"; "Hello"]);
     MkSection (u16 "Tech Stack") 2 (doc ["## Tech Stack"; "TS"])].
Proof.
  destruct (merge_parse_roundtrip
    (doc ["## About This Project"; "Hello"; ""; "## Custom"; "x"])
    (doc ["# Title"; ""; "## About This Project"; "Goodbye"; "## Tech Stack"; "TS"; ""]))
    as (_ & -> & _).
  - apply only_lf_breaks_check. by vm_compute.
  - apply only_lf_breaks_check. by vm_compute.
  - apply headers_not_empty_check. by vm_compute.
  - by vm_compute.
Defined.

(** C8, as stated, fails: the date span of the pattern is [.+?], one
    character or more and no line terminator, not any characters.  A banner
    without a date, or with a line feed at the end of its date, holds the
    prefix, some characters and the suffix, and is returned unchanged; and
    when the words of the suffix occur again after a banner without a date,
    the date span runs up to that second occurrence, so that the text in
    between, with its [Re-run], is replaced as well. *)
Lemma updateTimestamp_date_span_counterexample :
  (documented_banner_match banner_no_date [] []
     (u16 " `npx flight-dispatcher` to update.") ∧
   updateTimestamp banner_no_date (u16 "2026-01-01") = banner_no_date) ∧
  (documented_banner_match banner_broken_date [] (u16 "2025-12-31" ++ [LF])
     (u16 " `npx flight-dispatcher` to update.") ∧
   updateTimestamp banner_broken_date (u16 "2026-01-01") = banner_broken_date) ∧
  (documented_banner_match banner_no_date_twice [] []
     (u16 " to update. Re-run the installer.") ∧
   updateTimestamp banner_no_date_twice (u16 "2026-01-01")
     = u16 "> Auto-generated by flight-dispatcher on 2026-01-01. Re-run the installer." ∧
   updateTimestamp banner_no_date_twice (u16 "2026-01-01")
     ≠ u16 "> Auto-generated by flight-dispatcher on 2026-01-01. Re-run to update. Re-run the installer.").
Proof. split_and!; by vm_compute. Qed.

(** C8, amended.  Without a banner (the prefix, then one character or more
    and no line terminator, then the suffix) the input is returned
    unchanged, whatever the date.  With one, and a date without dollar sign
    (as the dates of the caller, of the form YYYY-MM-DD), the leftmost
    banner with the shortest date span is the one replaced: its date span
    becomes the supplied date, and the text before and after it, with every
    other [Re-run], is left as it is. *)
Theorem updateTimestamp_first_match content date :
  ((∀ before d after, ¬ banner_match content before d after) →
     updateTimestamp content date = content) ∧
  ((∃ before d after, banner_match content before d after) →
   DOLLAR ∉ date →
     ∃ before d after,
       banner_match content before d after ∧
       (∀ before' d' after', banner_match content before' d' after' →
          length before < length before' ∨
          (length before = length before' ∧ length d ≤ length d')) ∧
       updateTimestamp content date
         = before ++ banner_prefix ++ date ++ banner_suffix ++ after).
Proof.
  unfold updateTimestamp, replace, re_exec.
  pose proof (exec_from_banner 0 content) as Hex.
  destruct (exec_from bannerRegex 0 content) as [m|].
  - destruct Hex as (before & d & after & Hm & -> & Hmin). split.
    + intros Hno. by destruct (Hno before d after).
    + intros _ Hdate. exists before, d, after. cbn [m_index m_end].
      split_and!; [done | done |].
      destruct Hm as (E & _). clear Hmin.
      set (M := banner_prefix ++ d ++ banner_suffix) in *.
      assert (content = before ++ M ++ after) as ->
        by (unfold M; by rewrite E, <- !app_assoc).
      clearbody M. rewrite !Nat.add_0_l.
      rewrite <- drop_drop. rewrite take_app_length, !drop_app_length.
      rewrite get_substitution_no_dollar; [by rewrite <- !app_assoc|].
      intros [H|[H|H]%elem_of_app]%elem_of_app; [|done|];
        apply list_elem_of_In in H; vm_compute in H;
        repeat destruct H as [H|H]; try discriminate H; done.
  - split; [done|]. intros (before & d & after & Hm). by destruct (Hex before d after).
Qed.

Lemma updateTimestamp_first_match_witness :
  ∃ before d after,
    banner_match banner_2025 before d after ∧
    (∀ before' d' after', banner_match banner_2025 before' d' after' →
       length before < length before' ∨
       (length before = length before' ∧ length d ≤ length d')) ∧
    updateTimestamp banner_2025 (u16 "2026-01-01")
      = before ++ banner_prefix ++ u16 "2026-01-01" ++ banner_suffix ++ after.
Proof.
  apply (proj2 (updateTimestamp_first_match banner_2025 (u16 "2026-01-01"))).
  - exists [], (u16 "2025-12-31"),
      (doc [" `npx flight-dispatcher` to update."; ""; "## Git Hooks"; "Re-run the installer."]).
    split_and!; [by vm_compute | done |]. apply forallb_is_dot. by vm_compute.
  - intros H. apply list_elem_of_In in H. vm_compute in H.
    repeat destruct H as [H|H]; try discriminate H; done.
Defined.




(** C10. When the new document has no section, the output is a single line
    feed, whatever the existing document holds. *)
Theorem merge_empty_new existingText :
  merge existingText [] = [LF] ∧
  ∀ newText, parseSections newText = [] → merge existingText newText = [LF].
Proof.
  assert (∀ newText, parseSections newText = [] → merge existingText newText = [LF])
    as Hgen.
  { intros newText Hnew. unfold merge. by rewrite finalSections_eq, Hnew. }
  split; [by apply Hgen | done].
Qed.

Lemma merge_empty_new_witness :
  merge (doc ["# Title"; "## About This Project"; "mine"; "## Custom"; "x"])
        (doc ["no heading"; "at all"]) = [LF].
Proof.
  apply (proj2 (merge_empty_new
                  (doc ["# Title"; "## About This Project"; "mine"; "## Custom"; "x"]))).
  by vm_compute.
Defined.

(** * Further properties of the module *)

(** ** The shape of the parsed sections *)

Section shape.
Implicit Types (st : pstate) (line l h : jstring) (lines body : list jstring).

Lemma trimEnd_hashes k : trimEnd (replicate k HASH) = replicate k HASH.
Proof.
  destruct k as [|k]; [done|]. rewrite replicate_S_end.
  by apply trimEnd_snoc_not_ws.
Qed.

(** What is left of a block after right-trimming starts with the hashes of
    its heading line, followed by white space if by anything. *)
Lemma trimEnd_heading_prefix k w (x : jstring) :
  w ≠ [] → Forall (λ c, is_ws c = true) w →
  ∃ rest, trimEnd (replicate k HASH ++ w ++ x) = replicate k HASH ++ rest ∧
          (rest = [] ∨ ∃ c r, rest = c :: r ∧ is_ws c = true).
Proof.
  intros Hw Hws. destruct (decide (trimEnd (w ++ x) = [])) as [E|E].
  - exists []. split; [|by left]. apply trimEnd_nil_ws in E.
    by rewrite trimEnd_app_ws, app_nil_r, trimEnd_hashes.
  - exists (trimEnd (w ++ x)). split; [by apply trimEnd_app_not_ws|]. right.
    destruct (trimEnd_spec (w ++ x)) as (w2 & Hs & _).
    destruct (trimEnd (w ++ x)) as [|c r]; [done|].
    destruct w as [|c' w]; [done|]. apply Forall_cons in Hws as [Hc _].
    simpl in Hs. injection Hs as -> _. eauto.
Qed.

Lemma trim_sublist_dot (t : jstring) :
  Forall (λ c, is_dot c = true) t → Forall (λ c, is_dot c = true) (trim t).
Proof.
  intros Ht. destruct (trim_spec t) as (w1 & w2 & E & _).
  rewrite E in Ht. by apply Forall_app in Ht as [_ [? _]%Forall_app].
Qed.

(** The state of the loop, seen as the headings read so far. *)
Lemma parse_loop_infos lines :
  let st := foldl parse_step pstate_init lines in
  (section_info <$> sections st)
  ++ (if inSection st
      then [(currentSectionLevel st, currentSectionHeader st)] else [])
  = heading_infos lines ∧
  (inSection st = false → sections st = [] ∧ currentSectionHeader st = []).
Proof.
  induction lines as [|l lines IH] using rev_ind; [done|].
  cbn zeta in *. rewrite foldl_app. cbn [foldl].
  set (st := foldl parse_step pstate_init lines) in *.
  destruct IH as [Hinfos Hout]. unfold heading_infos in *. rewrite omap_app.
  rewrite <- Hinfos. cbn [omap list_omap].
  destruct (match_heading l) as [[lvl hdr]|] eqn:Hm.
  - rewrite (parse_step_heading _ _ _ _ Hm). simpl. split; [|done].
    destruct (inSection st) eqn:Hin; simpl.
    + by rewrite fmap_app.
    + destruct (Hout eq_refl) as [-> ->]. done.
  - rewrite (parse_step_other _ _ Hm). destruct (inSection st) eqn:Hin; simpl.
    + by rewrite app_nil_r.
    + rewrite Hin. rewrite !app_nil_r. split; [done|]. intros _. by apply Hout.
Qed.
End shape.

Section blank_lines.
Implicit Types (st : pstate) (l : jstring) (lines cc ex : list jstring).

Lemma split_nl_Forall (P : N → Prop) (s : jstring) :
  Forall P s → Forall (Forall P) (split_nl s).
Proof.
  induction s as [|c s IH]; simpl; [by repeat constructor|].
  intros [Hc Hs]%Forall_cons. specialize (IH Hs).
  destruct (c =? LF)%N; [by constructor|].
  destruct (split_nl s) as [|l ls]; [by repeat constructor|].
  apply Forall_cons in IH as [Hl Hls]. by repeat constructor.
Qed.

Lemma not_heading_first c (l : jstring) :
  c ≠ HASH → match_heading (c :: l) = None.
Proof.
  intros Hc. apply match_heading_None. intros k w t (E & Hk & _).
  destruct k as [|k]; [lia|]. simpl in E. by injection E as -> _.
Qed.

Lemma blank_line_no_heading l :
  Forall (λ c, is_ws c = true) l → match_heading l = None.
Proof.
  intros Hl. destruct l as [|c l]; [done|]. apply not_heading_first.
  intros ->. by apply Forall_cons in Hl as [? _].
Qed.

(** Blank lines are added to the section being read, if there is one. *)
Lemma parse_blank_lines st ex :
  Forall (Forall (λ c, is_ws c = true)) ex →
  foldl parse_step st ex =
    if inSection st
    then MkPState (sections st) (currentSectionHeader st)
           (currentSectionLevel st) (currentContent st ++ ex) true
    else st.
Proof.
  induction ex as [|l ex IH] using rev_ind; intros Hex.
  - simpl. rewrite app_nil_r. by destruct st as [? ? ? ? []].
  - apply Forall_app in Hex as [Hex [Hl _]%Forall_cons].
    rewrite foldl_app, IH by done. cbn [foldl].
    rewrite parse_step_other by (by apply blank_line_no_heading).
    destruct (inSection st) eqn:Hin; simpl; [|by rewrite Hin].
    by rewrite <- app_assoc.
Qed.

Lemma trimEnd_join_blank cc ex :
  cc ≠ [] → Forall (Forall (λ c, is_ws c = true)) ex →
  trimEnd (join [LF] (cc ++ ex)) = trimEnd (join [LF] cc).
Proof.
  intros Hcc. induction ex as [|l ex IH] using rev_ind; intros Hex.
  - by rewrite app_nil_r.
  - apply Forall_app in Hex as [Hex [Hl _]%Forall_cons].
    rewrite app_assoc, join_snoc by (by destruct cc).
    rewrite trimEnd_app_ws; [by apply IH|]. by constructor.
Qed.

Lemma parse_lines_blank lines ex :
  Forall (Forall (λ c, is_ws c = true)) ex →
  parse_lines (lines ++ ex) = parse_lines lines.
Proof.
  intros Hex. unfold parse_lines. rewrite foldl_app, parse_blank_lines by done.
  pose proof (parse_inv_loop (λ _, True) lines (Forall_true _ _ (λ _, I))) as [_ Hcur].
  destruct (inSection _) eqn:Hin; [|done].
  destruct Hcur as (h & body & Hc & _).
  unfold parse_finish, close_section. simpl. rewrite Hin.
  rewrite trimEnd_join_blank; [done | by rewrite Hc | done].
Qed.
End blank_lines.

Lemma join_head sep (l : jstring) (ls : list jstring) :
  ∃ x, join sep (l :: ls) = l ++ x.
Proof.
  destruct ls as [|l' ls]; [exists []; by rewrite app_nil_r|].
  rewrite join_cons. eauto.
Qed.

(** X1.  Every parsed section has a level from 1 to 6 and a header without
    white space at either end and without line terminator; its content is
    right-trimmed and starts with as many hashes as its level, followed by
    white space if by anything. *)
Theorem parsed_section_shape markdown s :
  s ∈ parseSections markdown →
  1 ≤ level s ≤ 6 ∧
  trim (header s) = header s ∧
  Forall (λ c, is_dot c = true) (header s) ∧
  trimEnd (content s) = content s ∧
  ∃ rest, content s = replicate (level s) HASH ++ rest ∧
          (rest = [] ∨ ∃ c r, rest = c :: r ∧ is_ws c = true).
Proof.
  intros Hs. pose proof (parseSections_blocks markdown) as Hb.
  rewrite Forall_forall in Hb. destruct (Hb s Hs) as (h & body & Hc & Hm & _).
  apply match_heading_sound in Hm as (w & t & (-> & Hk & Hw & Hws & Ht & Hdot) & Hh).
  rewrite Hh, Hc. split_and!; [lia | lia | apply trim_idemp | by apply trim_sublist_dot
    | apply trimEnd_idemp |].
  destruct (join_head [LF] (replicate (level s) HASH ++ w ++ t) body) as [x ->].
  rewrite <- !app_assoc. by apply trimEnd_heading_prefix.
Qed.

Lemma parsed_section_shape_witness :
  1 ≤ 2 ≤ 6 ∧
  trim (u16 "Sub") = u16 "Sub" ∧
  Forall (λ c, is_dot c = true) (u16 "Sub") ∧
  trimEnd (doc ["## Sub  "; "x"]) = doc ["## Sub  "; "x"] ∧
  ∃ rest, doc ["## Sub  "; "x"] = replicate 2 HASH ++ rest ∧
          (rest = [] ∨ ∃ c r, rest = c :: r ∧ is_ws c = true).
Proof.
  apply (parsed_section_shape
           (doc ["intro"; "# Title"; "body"; ""; "## Sub  "; "x"; ""])
           (MkSection (u16 "Sub") 2 (doc ["## Sub  "; "x"]))).
  apply list_elem_of_In. vm_compute. right. by left.
Defined.

(** X2.  The levels and headers of the parsed sections are those of the
    heading lines of the document, in the order of the lines; only a last
    heading line with an empty header gives no section. *)
Theorem parsed_sections_follow_headings markdown :
  section_info <$> parseSections markdown
  = drop_empty_last (heading_infos (split_nl markdown)).
Proof.
  unfold parseSections, parse_lines, parse_finish.
  destruct (parse_loop_infos (split_nl markdown)) as [Hinfos Hout].
  cbn zeta in *. rewrite <- Hinfos. unfold drop_empty_last.
  destruct (inSection _) eqn:Hin; simpl.
  - rewrite last_snoc. destruct (currentSectionHeader _) as [|c hdr] eqn:Hh; simpl.
    + rewrite length_app. simpl.
      by rewrite Nat.add_sub, take_app_length.
    + rewrite fmap_app. simpl. unfold section_info at 2, close_section. simpl.
      by rewrite Hh.
  - destruct (Hout eq_refl) as [-> _]. done.
Qed.

(** X3.  White space after the last line feed of a document (blank lines
    at its end, a final newline) does not change what is parsed. *)
Theorem trailing_blank_lines_ignored markdown (w : jstring) :
  Forall (λ c, is_ws c = true) w →
  parseSections (markdown ++ LF :: w) = parseSections markdown.
Proof.
  intros Hw. unfold parseSections. rewrite split_nl_app_lf.
  by apply parse_lines_blank, split_nl_Forall.
Qed.

Lemma trailing_blank_lines_ignored_witness :
  parseSections (doc ["# Title"; "body"] ++ LF :: u16 "  " ++ [LF; LF])
  = parseSections (doc ["# Title"; "body"]).
Proof.
  apply (trailing_blank_lines_ignored (doc ["# Title"; "body"]) (u16 "  " ++ [LF; LF])).
  apply Forall_forall. intros c Hc. apply list_elem_of_In in Hc. vm_compute in Hc.
  by repeat destruct Hc as [<-|Hc].
Defined.

(** ** What the extractor reads back *)

Section entries.
Implicit Types (l r t h x : jstring) (rules : list jstring).

Lemma trim_nil_ws x : trim x = [] → Forall (λ c, is_ws c = true) x.
Proof.
  intros E. destruct (trim_spec x) as (w1 & w2 & Hx & Hw1 & Hw2 & _).
  rewrite E in Hx. rewrite Hx. by apply Forall_app.
Qed.

Lemma trim_no_lf x : LF ∉ x → LF ∉ trim x.
Proof.
  intros Hx Hin. destruct (trim_spec x) as (w1 & w2 & E & _).
  apply Hx. rewrite E. rewrite !elem_of_app. auto.
Qed.

(** A text without white space at either end is its own trimmed form. *)
Lemma trim_id x :
  (∀ c y, x = c :: y → is_ws c = false) →
  (∀ y c, x = y ++ [c] → is_ws c = false) →
  trim x = x.
Proof.
  intros Hhd Hlast. rewrite trim_no_trailing by done.
  destruct x as [|c y]; [done|]. apply trimStart_cons_not_ws. by eapply Hhd.
Qed.

Lemma plain_text_last r :
  r ≠ [] → trim r = r → ∃ y c, r = y ++ [c] ∧ is_ws c = false.
Proof.
  intros Hr Ht. destruct (trim_spec r) as (_ & _ & _ & _ & _ & _ & Hlast).
  rewrite Ht in Hlast. destruct r as [|c y _] using rev_ind; [done|].
  exists y, c. split; [done|]. by eapply Hlast.
Qed.

(** A line made of a prefix that starts without white space and of a plain
    text is its own trimmed form. *)
Lemma trim_prefixed c p r :
  is_ws c = false → r ≠ [] → trim r = r → trim (c :: p ++ r) = c :: p ++ r.
Proof.
  intros Hc Hr Ht. apply trim_id.
  - by intros c' y [= <- _].
  - intros y c' E. destruct (plain_text_last r Hr Ht) as (y' & c'' & -> & Hc'').
    rewrite app_comm_cons, app_assoc in E. by apply app_inj_tail in E as [_ <-].
Qed.

Lemma trim_heading_line h : ∃ x, trim (HASH :: h) = HASH :: x.
Proof.
  unfold trim. rewrite trimStart_cons_not_ws by done.
  destruct (trimEnd_spec (HASH :: h)) as (w & E & Hw & _).
  destruct (trimEnd (HASH :: h)) as [|c x]; simpl in E.
  - subst w. by apply Forall_cons in Hw as [? _].
  - injection E as <- _. eauto.
Qed.

Lemma rule_filter_heading h : startsWith (u16 "- ") (trim (HASH :: h)) = false.
Proof. by destruct (trim_heading_line h) as [x ->]. Qed.

Lemma rule_line_kept r :
  plain_text r →
  startsWith (u16 "- ") (trim (rule_line r)) = true ∧
  trim (drop 2 (trim (rule_line r))) = r.
Proof.
  intros (Hr & Ht & _). unfold rule_line.
  change (u16 "- " ++ r) with (45%N :: [32%N] ++ r).
  rewrite trim_prefixed by done. split; [done|]. exact Ht.
Qed.

(** The rule lines of a section, read back. *)
Lemma rules_of_rule_lines (s : section) h rules :
  content s = join [LF] ((HASH :: h) :: (rule_line <$> rules)) →
  LF ∉ h → Forall plain_text rules → rules_of s = rules.
Proof.
  intros Hc Hh Hrules. unfold rules_of. rewrite Hc, split_nl_join.
  - cbn [List.filter]. rewrite rule_filter_heading. clear Hc.
    induction Hrules as [|r rules Hr _ IH]; [done|].
    destruct (rule_line_kept r Hr) as [Hkeep Hval].
    rewrite fmap_cons. cbn [List.filter]. rewrite Hkeep, fmap_cons, Hval.
    by f_equal.
  - done.
  - constructor; [by intros [?|?]%elem_of_cons|].
    apply Forall_fmap. eapply Forall_impl; [done|]. intros r (_ & _ & Hlf).
    unfold rule_line. simpl. by intros [?|[?|?]%elem_of_cons]%elem_of_cons.
Qed.

Lemma todo_entry_heading h : todo_entry (HASH :: h) = None.
Proof.
  unfold todo_entry. destruct (trim_heading_line h) as [x ->]. done.
Qed.

Lemma todo_entry_todo_line (e : bool * jstring) :
  e.2 ≠ [] → trim e.2 = e.2 → Forall (λ c, is_dot c = true) e.2 →
  todo_entry (todo_line_of e) = Some e.2.
Proof.
  destruct e as [b t]. simpl. intros Ht Htr Hdot. apply todo_entry_Some.
  exists (32%N :: t). split_and!; [| | done..].
  - unfold todo_line_of. simpl fst. simpl snd. destruct b.
    + right. change (u16 "- [x] " ++ t) with (45%N :: u16 " [x] " ++ t).
      by rewrite trim_prefixed.
    + left. change (u16 "- [ ] " ++ t) with (45%N :: u16 " [ ] " ++ t).
      by rewrite trim_prefixed.
  - change (32%N :: t) with ([32%N] ++ t). rewrite trim_app_ws; [done|].
    by repeat constructor.
Qed.

(** The todo lines of a section, read back. *)
Lemma todos_of_todo_lines (s : section) h (entries : list (bool * jstring)) :
  content s = join [LF] ((HASH :: h) :: (todo_line_of <$> entries)) →
  LF ∉ h →
  Forall (λ e, e.2 ≠ [] ∧ trim e.2 = e.2 ∧ Forall (λ c, is_dot c = true) e.2) entries →
  todos_of s = snd <$> entries.
Proof.
  intros Hc Hh Hentries. rewrite todos_of_lines, Hc, split_nl_join.
  - cbn [omap list_omap]. rewrite todo_entry_heading. clear Hc.
    induction Hentries as [|e entries (Hr & Ht & Hdot) _ IH]; [done|].
    rewrite !fmap_cons. cbn [omap list_omap].
    rewrite todo_entry_todo_line by done. by f_equal.
  - done.
  - constructor; [by intros [?|?]%elem_of_cons|].
    apply Forall_fmap. eapply Forall_impl; [done|]. intros [b t] (_ & _ & Hdot).
    simpl in *. apply dot_no_lf. unfold todo_line_of. simpl fst. simpl snd.
    apply Forall_app. split; [|done]. destruct b; by repeat constructor.
Qed.
End entries.

Lemma find_first_with_header h ss i (s : section) :
  first_with_header h ss i s → find_section h ss = Some s.
Proof. intros Hf. apply find_section_Some. by exists i. Qed.

(** A document made of one heading line and of lines that are no heading
    lines has one section. *)
Lemma parse_single_block (h : jstring) (body : list jstring) lvl hdr :
  match_heading h = Some (lvl, hdr) → hdr ≠ [] →
  Forall (λ l, match_heading l = None) body →
  parse_lines (h :: body)
  = [MkSection hdr lvl (trimEnd (join [LF] (h :: body)))].
Proof.
  intros Hh Hne Hbody. unfold parse_lines.
  rewrite (parse_block _ _ _ _ _ Hh Hbody). unfold parse_finish. simpl.
  by destruct hdr.
Qed.

(** X4.  Rules written one per line as [- rule] under the heading of the
    first section named Architecture Rules are read back as they were
    written, in order, as long as each rule is not empty, has no white space
    at either end and holds no line feed. *)
Theorem rules_round_trip existingContent i s (h : jstring) (rules : list jstring) :
  first_with_header (u16 "Architecture Rules") (parseSections existingContent) i s →
  content s = join [LF] ((HASH :: h) :: (rule_line <$> rules)) →
  LF ∉ h → Forall plain_text rules →
  architectureRules (extractPreservedData existingContent) = rules.
Proof.
  intros Hfirst Hc Hh Hrules. unfold extractPreservedData. simpl.
  rewrite (find_first_with_header _ _ _ _ Hfirst). simpl.
  by eapply rules_of_rule_lines.
Qed.

Lemma rules_round_trip_witness :
  architectureRules
    (extractPreservedData
       (doc ["# Title"; "## Architecture Rules"; "- Use X"; "- Never use `any`"; "";
             "## Deployment"; "- Vercel"]))
  = [u16 "Use X"; u16 "Never use `any`"].
Proof.
  apply (rules_round_trip _ 1
           (MkSection (u16 "Architecture Rules") 2
              (doc ["## Architecture Rules"; "- Use X"; "- Never use `any`"]))
           (u16 "# Architecture Rules")).
  - split_and!; [by vm_compute..|].
    intros [|[|j]] s' Hj Hs'; [|lia..]. vm_compute in Hs'. by injection Hs' as <-.
  - by vm_compute.
  - intros Hin. apply list_elem_of_In in Hin. vm_compute in Hin.
    by repeat destruct Hin as [Hin|Hin].
  - repeat constructor; try done; try by vm_compute.
    all: intros Hin; apply list_elem_of_In in Hin; vm_compute in Hin;
      by repeat destruct Hin as [Hin|Hin].
Defined.

(** X5.  Todos written one per line as [- [ ] text] or [- [x] text] under
    the heading of the first section named Pending TODOs are read back as
    their texts, in order, checked or not, as long as each text is not
    empty, has no white space at either end and holds no line terminator. *)
Theorem todos_round_trip existingContent i s (h : jstring)
    (entries : list (bool * jstring)) :
  first_with_header (u16 "Pending TODOs") (parseSections existingContent) i s →
  content s = join [LF] ((HASH :: h) :: (todo_line_of <$> entries)) →
  LF ∉ h →
  Forall (λ e, e.2 ≠ [] ∧ trim e.2 = e.2 ∧ Forall (λ c, is_dot c = true) e.2) entries →
  todos (extractPreservedData existingContent) = snd <$> entries.
Proof.
  intros Hfirst Hc Hh Hentries. unfold extractPreservedData. simpl.
  rewrite (find_first_with_header _ _ _ _ Hfirst). simpl.
  by eapply todos_of_todo_lines.
Qed.

Lemma todos_round_trip_witness :
  todos
    (extractPreservedData
       (doc ["## Pending TODOs"; "- [ ] Add export"; "- [x] Fix login"; ""]))
  = [u16 "Add export"; u16 "Fix login"].
Proof.
  apply (todos_round_trip _ 0
           (MkSection (u16 "Pending TODOs") 2
              (doc ["## Pending TODOs"; "- [ ] Add export"; "- [x] Fix login"]))
           (u16 "# Pending TODOs")
           [(false, u16 "Add export"); (true, u16 "Fix login")]).
  - split_and!; [by vm_compute..|]. intros j s' Hj. lia.
  - by vm_compute.
  - intros Hin. apply list_elem_of_In in Hin. vm_compute in Hin.
    by repeat destruct Hin as [Hin|Hin].
  - repeat constructor; try done; try by vm_compute.
Defined.

(** X6.  For a document made of a heading line named About This Project
    and of a body without heading line, the description is the body,
    trimmed. *)
Theorem description_round_trip (h body : jstring) lvl :
  match_heading h = Some (lvl, u16 "About This Project") → LF ∉ h →
  (∀ l, l ∈ split_nl body → ∀ k w t, ¬ heading_line l k w t) →
  description (extractPreservedData (h ++ LF :: body)) = trim body.
Proof.
  intros Hh Hlf Hbody.
  assert (Forall (λ l, match_heading l = None) (split_nl body)) as Hnone.
  { apply Forall_forall. intros l Hl. apply match_heading_None. by apply Hbody. }
  unfold extractPreservedData, parseSections. rewrite split_nl_app by done.
  rewrite (parse_single_block _ _ _ _ Hh) by done.
  cbn [find_section List.find header description].
  rewrite bool_decide_eq_true_2 by done.
  cbn [from_option]. unfold description_of. cbn [content].
  assert (join [LF] (h :: split_nl body) = h ++ LF :: body) as ->.
  { destruct (split_nl_cons_inv body) as (l & ls & E).
    by rewrite E, join_cons, <- E, join_split_nl. }
  destruct (decide (trimEnd body = [])) as [Hws|Hne].
  - apply trimEnd_nil_ws in Hws.
    rewrite trimEnd_app_ws by (constructor; [reflexivity | done]).
    rewrite split_nl_no_lf.
    + cbn [drop join]. unfold trim. by rewrite (trimStart_ws body).
    + intros Hin. destruct (trimEnd_spec h) as (w & Hs & _).
      apply Hlf. rewrite Hs. apply elem_of_app. by left.
  - change (h ++ LF :: body) with (h ++ [LF] ++ body).
    rewrite app_assoc, trimEnd_app_not_ws, <- app_assoc by done.
    change (h ++ [LF] ++ trimEnd body) with (h ++ LF :: trimEnd body).
    rewrite split_nl_app by done. cbn [drop]. rewrite drop_0.
    by rewrite join_split_nl, trim_trimEnd.
Qed.

Lemma description_round_trip_witness :
  description
    (extractPreservedData
       (u16 "## About This Project" ++ LF :: doc [""; "A SaaS platform."; "More."; ""]))
  = doc ["A SaaS platform."; "More."].
Proof.
  rewrite (description_round_trip (u16 "## About This Project")
             (doc [""; "A SaaS platform."; "More."; ""]) 2).
  - by vm_compute.
  - by vm_compute.
  - intros Hin. apply list_elem_of_In in Hin. vm_compute in Hin.
    by repeat destruct Hin as [Hin|Hin].
  - intros l Hl. apply match_heading_None. apply list_elem_of_In in Hl.
    vm_compute in Hl. by repeat destruct Hl as [<-|Hl]; vm_compute.
Defined.

(** X7.  What the extractor returns is normalised: the description has no
    white space at either end; no rule is empty, has white space at either
    end or holds a line feed; no todo is empty, has white space at either
    end or holds a line terminator. *)
Theorem extracted_data_normalised existingContent :
  trim (description (extractPreservedData existingContent))
    = description (extractPreservedData existingContent) ∧
  Forall plain_text (architectureRules (extractPreservedData existingContent)) ∧
  Forall (λ t, plain_text t ∧ Forall (λ c, is_dot c = true) t)
    (todos (extractPreservedData existingContent)).
Proof.
  unfold extractPreservedData. simpl. split_and!.
  - destruct (find_section _ _); simpl; [apply trim_idemp | done].
  - destruct (find_section (u16 "Architecture Rules") _) as [s|]; simpl; [|done].
    unfold rules_of. apply Forall_fmap, Forall_forall. intros l Hl.
    apply list_elem_of_In, filter_In in Hl as [Hl%list_elem_of_In Hstart].
    apply startsWith_prefix in Hstart as [rest Hrest]. simpl.
    rewrite Hrest. change (drop 2 (u16 "- " ++ rest)) with rest.
    assert (LF ∉ l) as Hlf.
    { pose proof (split_nl_lines (content s)) as Hlines.
      rewrite Forall_forall in Hlines. by apply Hlines. }
    split_and!; [|apply trim_idemp|].
    + intros Hnil%trim_nil_ws.
      destruct (trim_spec l) as (_ & _ & _ & _ & _ & _ & Hlast).
      rewrite Hrest in Hlast. destruct rest as [|c y _] using rev_ind.
      * by specialize (Hlast [45%N] 32%N eq_refl).
      * apply Forall_app in Hnil as [_ [Hc _]%Forall_cons].
        rewrite (Hlast (u16 "- " ++ y) c) in Hc; [done|]. by rewrite <- app_assoc.
    + apply trim_no_lf. intros Hin. apply (trim_no_lf l Hlf).
      rewrite Hrest. apply elem_of_app. by right.
  - destruct (find_section (u16 "Pending TODOs") _) as [s|]; simpl; [|done].
    rewrite todos_of_lines. apply Forall_forall. intros t Ht.
    apply list_elem_of_In in Ht.
    assert (∃ l, todo_entry l = Some t) as [l Hl].
    { induction (split_nl (content s)) as [|l ls IH]; [done|].
      cbn [omap list_omap] in Ht. destruct (todo_entry l) as [t'|] eqn:E.
      - destruct Ht as [<-|Ht]; [by eauto | by apply IH].
      - by apply IH. }
    apply todo_entry_Some in Hl as (rest & _ & -> & Hne & Hdot).
    split; [|done]. split_and!; [done | apply trim_idemp | by apply dot_no_lf].
Qed.

(** ** What [merge] takes from the existing document *)

Section merge_more.
Implicit Types (ss es ns : list section) (h : jstring) (s : section).

Lemma build_map_last ss h s :
  build_map ss !! h = Some s ↔ ∃ j, last_with_header h ss j s.
Proof. apply build_map_Some. Qed.

(** The selection only looks at the existing sections with a preserved
    header. *)
Lemma select_section_ext (m m' : gmap jstring section) s :
  (∀ h, h ∈ PRESERVED_SECTIONS → m !! h = m' !! h) →
  select_section m s = select_section m' s.
Proof.
  intros Hm. unfold select_section. case_bool_decide as Hp; [|done].
  by rewrite (Hm _ Hp).
Qed.

Lemma finalSections_elem existingContent newContent s :
  s ∈ finalSections existingContent newContent →
  s ∈ parseSections existingContent ∨ s ∈ parseSections newContent.
Proof.
  rewrite finalSections_eq. intros (ns & -> & Hns)%list_elem_of_fmap.
  unfold select_section. case_bool_decide; [|by right].
  destruct (build_map _ !! header ns) as [es|] eqn:Hl; [|by right].
  apply build_map_Some in Hl as (j & Hj & _). left.
  by eapply list_elem_of_lookup_2.
Qed.

(** The content of a parsed section starts with a hash and is
    right-trimmed. *)
Lemma parsed_content_start markdown s :
  s ∈ parseSections markdown →
  (∃ x, content s = HASH :: x) ∧ trimEnd (content s) = content s.
Proof.
  intros Hs. pose proof (parseSections_blocks markdown) as Hb.
  rewrite Forall_forall in Hb. destruct (Hb s Hs) as (h & body & Hc & Hm & _).
  rewrite Hc. split; [|apply trimEnd_idemp].
  apply match_heading_sound in Hm as (w & t & (-> & Hk & Hw & Hws & _) & _).
  destruct (join_head [LF] (replicate (level s) HASH ++ w ++ t) body) as [x ->].
  rewrite <- !app_assoc.
  destruct (trimEnd_heading_prefix (level s) w (t ++ x) Hw Hws) as (rest & -> & _).
  destruct (level s) as [|k]; [lia|]. simpl. eauto.
Qed.

(** Joined texts that each start with a hash and are right-trimmed. *)
Lemma join_contents_shape sep (ls : list jstring) :
  ls ≠ [] →
  Forall (λ l, (∃ x, l = HASH :: x) ∧ trimEnd l = l) ls →
  (∃ x, join sep ls = HASH :: x) ∧ trimEnd (join sep ls) = join sep ls.
Proof.
  induction ls as [|l ls IH]; [done|]. intros _ [[[x ->] Hl] Hls]%Forall_cons.
  destruct ls as [|l' ls]; [by eauto|].
  destruct (IH ltac:(done) Hls) as [[y Hy] Htrim]. rewrite join_cons. split.
  - simpl. eauto.
  - rewrite app_assoc, trimEnd_app_not_ws; [by rewrite Htrim|].
    rewrite Htrim, Hy. done.
Qed.
End merge_more.

(** X8.  What [merge] takes from the existing document is, for each header
    of the preservation policy, the last section with that header: two
    existing documents that agree on these give the same output, and an
    existing document without such a section gives the sections of the new
    document, joined. *)
Theorem merge_reads_preserved_only existingText newText :
  (∀ otherText,
     (∀ h s, h ∈ PRESERVED_SECTIONS →
        (∃ j, last_with_header h (parseSections existingText) j s) ↔
        (∃ j, last_with_header h (parseSections otherText) j s)) →
     merge existingText newText = merge otherText newText) ∧
  ((∀ s, s ∈ parseSections existingText → header s ∉ PRESERVED_SECTIONS) →
   merge existingText newText
     = join [LF; LF] (content <$> parseSections newText) ++ [LF]).
Proof.
  split.
  - intros otherText Hagree. unfold merge. rewrite !finalSections_eq.
    do 3 f_equal. apply list_fmap_ext. intros _ s _.
    apply select_section_ext. intros h Hp.
    destruct (build_map (parseSections existingText) !! h) as [es|] eqn:Hl.
    + symmetry. apply build_map_last, Hagree, build_map_last; done.
    + destruct (build_map (parseSections otherText) !! h) as [es|] eqn:Hl'; [|done].
      apply build_map_last, Hagree, build_map_last in Hl'; [|done]. congruence.
  - intros Hnone. unfold merge. rewrite finalSections_eq. do 3 f_equal.
    rewrite <- (list_fmap_id (parseSections newText)) at 2.
    apply list_fmap_ext. intros _ s _. unfold select_section.
    case_bool_decide as Hp; [|done].
    destruct (build_map _ !! header s) as [es|] eqn:Hl; [|done].
    apply build_map_Some in Hl as (j & Hj & Hh & _).
    destruct (Hnone es); [by eapply list_elem_of_lookup_2 | by rewrite Hh].
Qed.

Lemma merge_reads_preserved_only_witness :
  merge (doc ["# Old title"; "## Tech Stack"; "old"; "## Custom"; "mine"])
        (doc ["# Title"; "## About This Project"; "new"; "## Tech Stack"; "TS"])
  = join [LF; LF]
      (content <$> parseSections
         (doc ["# Title"; "## About This Project"; "new"; "## Tech Stack"; "TS"]))
    ++ [LF].
Proof.
  apply (proj2 (merge_reads_preserved_only
    (doc ["# Old title"; "## Tech Stack"; "old"; "## Custom"; "mine"])
    (doc ["# Title"; "## About This Project"; "new"; "## Tech Stack"; "TS"]))).
  intros s Hs Hp. apply list_elem_of_In in Hs, Hp. vm_compute in Hs.
  repeat destruct Hs as [<-|Hs]; try done; vm_compute in Hp;
    by repeat destruct Hp as [Hp|Hp].
Defined.

(** X9.  Merging again with the same new document changes nothing, when the
    headers of the new document are distinct and not empty, and the only line
    terminator of the two documents is the line feed. *)
Theorem merge_idempotent existingText newText :
  only_lf_breaks existingText → only_lf_breaks newText →
  Forall (λ s, header s ≠ []) (parseSections newText) →
  NoDup (header <$> parseSections newText) →
  merge (merge existingText newText) newText = merge existingText newText.
Proof.
  intros He Hn Hne Hdup. unfold merge at 1 3. do 3 f_equal.
  rewrite (finalSections_eq (merge existingText newText)).
  assert (parseSections (merge existingText newText)
          = finalSections existingText newText) as ->.
  { unfold merge. by apply parse_joined_sections, finalSections_well_formed. }
  rewrite finalSections_eq.
  set (E := build_map (parseSections existingText)).
  apply list_eq. intros i. rewrite !list_lookup_fmap.
  destruct (parseSections newText !! i) as [s|] eqn:Hi; [|done]. simpl. f_equal.
  unfold select_section at 1. case_bool_decide as Hp.
  2: { unfold select_section. by rewrite bool_decide_eq_false_2. }
  assert (build_map (select_section E <$> parseSections newText) !! header s
          = Some (select_section E s)) as ->; [|done].
  apply build_map_Some. exists i. split_and!.
  - by rewrite list_lookup_fmap, Hi.
  - apply select_section_header. intros h es. apply build_map_header.
  - intros j s' Hlt Hj Hh. rewrite list_lookup_fmap in Hj.
    destruct (parseSections newText !! j) as [s''|] eqn:Hj'; [|done].
    injection Hj as <-.
    rewrite select_section_header in Hh by (intros h es; apply build_map_header).
    assert (i = j); [|lia].
    eapply (NoDup_lookup _ i j (header s)); [done | |];
      rewrite list_lookup_fmap; [by rewrite Hi | rewrite Hj'; simpl; by rewrite Hh].
Qed.

Lemma merge_idempotent_witness :
  merge
    (merge (doc ["## About This Project"; "mine"; "## Tech Stack"; "old"])
           (doc ["# Title"; "## About This Project"; "new"; "## Tech Stack"; "TS"; ""]))
    (doc ["# Title"; "## About This Project"; "new"; "## Tech Stack"; "TS"; ""])
  = merge (doc ["## About This Project"; "mine"; "## Tech Stack"; "old"])
          (doc ["# Title"; "## About This Project"; "new"; "## Tech Stack"; "TS"; ""]).
Proof.
  apply merge_idempotent.
  - apply only_lf_breaks_check. by vm_compute.
  - apply only_lf_breaks_check. by vm_compute.
  - apply headers_not_empty_check. by vm_compute.
  - apply (bool_decide_unpack (NoDup _)). by vm_compute.
Defined.

(** X10.  The output of [merge] is a single line feed, or it starts with a
    hash and ends with one line feed that no white space precedes.  (The
    first line starts with a hash; it need not be a heading line, as the
    content of a section with an empty header is a run of hashes.) *)
Theorem merge_output_format existingText newText :
  merge existingText newText = [LF] ∨
  ∃ body, merge existingText newText = HASH :: body ++ [LF] ∧
          trimEnd (HASH :: body) = HASH :: body.
Proof.
  unfold merge.
  destruct (finalSections existingText newText) as [|s ss] eqn:HF; [by left|].
  right.
  destruct (join_contents_shape [LF; LF] (content <$> s :: ss)) as [[x Hx] Htrim].
  - done.
  - apply Forall_fmap, Forall_forall. intros s' Hs'. rewrite <- HF in Hs'.
    apply finalSections_elem in Hs' as [Hs'|Hs']; by eapply parsed_content_start.
  - exists x. rewrite Hx in *. done.
Qed.

(** A header of the preservation policy that the new document carries and
    that exactly one section of the existing document carries is looked up to
    the same section after the merge as before. *)
Lemma find_section_after_merge existingText newText h :
  only_lf_breaks existingText → only_lf_breaks newText →
  Forall (λ s, header s ≠ []) (parseSections newText) →
  h ∈ PRESERVED_SECTIONS →
  kept_once h (parseSections existingText) (parseSections newText) →
  find_section h (parseSections (merge existingText newText))
  = find_section h (parseSections existingText).
Proof.
  intros He Hn Hne Hp [(ns & Hns & Hh) (j & es & Hfirst & Hlast)].
  rewrite (find_first_with_header _ _ _ _ Hfirst).
  assert (parseSections (merge existingText newText)
          = finalSections existingText newText) as ->.
  { unfold merge. by apply parse_joined_sections, finalSections_well_formed. }
  rewrite finalSections_eq.
  destruct (find_section h (parseSections newText)) as [ns0|] eqn:Hfind.
  2: { rewrite find_section_None in Hfind. by destruct (Hfind ns Hns). }
  apply find_section_Some in Hfind as (i & Hi & Hh0 & Hbefore).
  apply find_section_Some. exists i. split_and!.
  - rewrite list_lookup_fmap, Hi. simpl. f_equal. unfold select_section.
    rewrite Hh0, bool_decide_eq_true_2 by done.
    assert (build_map (parseSections existingText) !! h = Some es) as ->; [|done].
    apply build_map_Some. by exists j.
  - by destruct Hfirst as (_ & ? & _).
  - intros j' s' Hlt Hj' Hs'. rewrite list_lookup_fmap in Hj'.
    destruct (parseSections newText !! j') as [s''|] eqn:Hj''; [|done].
    injection Hj' as <-.
    rewrite select_section_header in Hs' by (intros ? ?; apply build_map_header).
    by apply (Hbefore j' s'').
Qed.

(** X11.  What was extracted from the existing document is extracted from
    the merged document as well: for each preserved header that the new
    document carries and that exactly one section of the existing document
    carries, the field computed from it is the same before and after the
    merge (when the only line terminator of the two documents is the line
    feed and no section of the new document has an empty header). *)
Theorem preserved_data_survive_merge existingText newText :
  only_lf_breaks existingText → only_lf_breaks newText →
  Forall (λ s, header s ≠ []) (parseSections newText) →
  (kept_once (u16 "About This Project")
     (parseSections existingText) (parseSections newText) →
   description (extractPreservedData (merge existingText newText))
     = description (extractPreservedData existingText)) ∧
  (kept_once (u16 "Architecture Rules")
     (parseSections existingText) (parseSections newText) →
   architectureRules (extractPreservedData (merge existingText newText))
     = architectureRules (extractPreservedData existingText)) ∧
  (kept_once (u16 "Pending TODOs")
     (parseSections existingText) (parseSections newText) →
   todos (extractPreservedData (merge existingText newText))
     = todos (extractPreservedData existingText)).
Proof.
  intros He Hn Hne. unfold extractPreservedData. cbn [description architectureRules todos].
  split_and!; intros Hkept;
    rewrite (find_section_after_merge existingText newText) by
      (try done; apply list_elem_of_In; vm_compute; tauto); done.
Qed.

Lemma preserved_data_survive_merge_witness :
  architectureRules
    (extractPreservedData
       (merge (doc ["# Old"; "## Architecture Rules"; "- Use X"; "- Use Y"; ""; "## Tech Stack"; "old"])
              (doc ["# Title"; "## Tech Stack"; "TS"; "## Architecture Rules"; "- generated"; ""])))
  = [u16 "Use X"; u16 "Use Y"].
Proof.
  destruct (preserved_data_survive_merge
    (doc ["# Old"; "## Architecture Rules"; "- Use X"; "- Use Y"; ""; "## Tech Stack"; "old"])
    (doc ["# Title"; "## Tech Stack"; "TS"; "## Architecture Rules"; "- generated"; ""]))
    as (_ & -> & _).
  - apply only_lf_breaks_check. by vm_compute.
  - apply only_lf_breaks_check. by vm_compute.
  - apply headers_not_empty_check. by vm_compute.
  - by vm_compute.
  - split.
    + exists (MkSection (u16 "Architecture Rules") 2
                (doc ["## Architecture Rules"; "- generated"])).
      split; [|done]. apply list_elem_of_In. vm_compute. tauto.
    + exists 1, (MkSection (u16 "Architecture Rules") 2
                   (doc ["## Architecture Rules"; "- Use X"; "- Use Y"])).
      split; (split_and!; [by vm_compute..|]).
      * intros [|[|j']] s' Hj Hs'; [|lia..]. vm_compute in Hs'. by injection Hs' as <-.
      * intros [|[|[|j']]] s' Hj Hs'; try lia; vm_compute in Hs'; [|done].
        by injection Hs' as <-.
Defined.

(** ** Updating the banner twice *)

Section banner_again.
Implicit Types (b d a u v k date : jstring).

(** The two outcomes of [updateTimestamp] for a date without dollar sign. *)
Lemma updateTimestamp_cases (c : jstring) date :
  DOLLAR ∉ date →
  (updateTimestamp c date = c ∧ ∀ b d a, ¬ banner_match c b d a) ∨
  (∃ b d a,
     banner_match c b d a ∧
     (∀ b' d' a', banner_match c b' d' a' →
        length b < length b' ∨ (length b = length b' ∧ length d ≤ length d')) ∧
     updateTimestamp c date = b ++ banner_prefix ++ date ++ banner_suffix ++ a).
Proof.
  intros Hdate. unfold updateTimestamp, replace, re_exec.
  pose proof (exec_from_banner 0 c) as Hex.
  destruct (exec_from bannerRegex 0 c) as [m|]; [|left; split; [done | exact Hex]].
  destruct Hex as (b & d & a & Hm & -> & Hmin). right.
  exists b, d, a. split_and!; [done..|]. cbn [m_index m_end].
  destruct Hm as (E & _).
  set (M := banner_prefix ++ d ++ banner_suffix) in *.
  assert (c = b ++ M ++ a) as -> by (unfold M; by rewrite E, <- !app_assoc).
  clearbody M. rewrite !Nat.add_0_l.
  rewrite <- drop_drop. rewrite take_app_length, !drop_app_length.
  rewrite get_substitution_no_dollar; [by rewrite <- !app_assoc|].
  intros [H|[H|H]%elem_of_app]%elem_of_app; [|done|];
    apply list_elem_of_In in H; vm_compute in H;
    repeat destruct H as [H|H]; try discriminate H; done.
Qed.

(** The prefix of the banner starts with the only [>] it holds, and the
    suffix holds none: a banner cannot overlap the start of another. *)
Lemma banner_prefix_no_overlap u (x y : jstring) :
  banner_prefix ++ x = u ++ banner_prefix ++ y → u ≠ [] →
  ∃ v, u = banner_prefix ++ v ∧ x = v ++ banner_prefix ++ y.
Proof.
  intros [(k & Hp & Hy)|(k & Hu & Hx)]%app_eq_inv Hne; [|by eauto].
  destruct k as [|g k].
  - exists []. rewrite app_nil_r in Hp. simpl in Hy. by subst.
  - exfalso. assert (g = 62%N) as -> by (by injection Hy as <-).
    destruct u as [|c0 u]; [done|]. injection Hp as _ Hp.
    assert (62%N ∈ u ++ 62%N :: k) as Hin by (apply elem_of_app; right; left).
    rewrite <- Hp in Hin. apply list_elem_of_In in Hin. vm_compute in Hin.
    repeat destruct Hin as [Hin|Hin]; try discriminate Hin; done.
Qed.

Lemma banner_suffix_no_overlap k (x y : jstring) :
  banner_suffix ++ x = k ++ banner_prefix ++ y →
  ∃ k', k = banner_suffix ++ k' ∧ x = k' ++ banner_prefix ++ y.
Proof.
  intros [(k' & Hs & Hy)|(k' & Hk & Hx)]%app_eq_inv; [|by eauto].
  destruct k' as [|g k'].
  - exists []. rewrite app_nil_r in Hs. simpl in Hy. by subst.
  - exfalso. assert (g = 62%N) as -> by (by injection Hy as <-).
    assert (62%N ∈ k ++ 62%N :: k') as Hin by (apply elem_of_app; right; left).
    rewrite <- Hs in Hin. apply list_elem_of_In in Hin. vm_compute in Hin.
    repeat destruct Hin as [Hin|Hin]; try discriminate Hin; done.
Qed.

Lemma banner_prefix_dot : Forall (λ c, is_dot c = true) banner_prefix.
Proof. apply forallb_is_dot. by vm_compute. Qed.

(** A banner that starts before the first banner of a text whose first
    banner has been rewritten would be a banner of the text itself. *)
Lemma no_banner_before b d a date b' d' a' :
  d ≠ [] → Forall (λ c, is_dot c = true) d →
  banner_match (b ++ banner_prefix ++ date ++ banner_suffix ++ a) b' d' a' →
  length b' < length b →
  ∃ d'' a'', banner_match (b ++ banner_prefix ++ d ++ banner_suffix ++ a) b' d'' a''.
Proof.
  intros Hd Hdot (E & Hd' & Hdot') Hlt.
  apply app_eq_inv in E as [(u & -> & E)|(u & Hb' & _)].
  2: { apply (f_equal length) in Hb'. rewrite length_app in Hb'. lia. }
  assert (u ≠ []) as Hu by (intros ->; rewrite app_nil_r in Hlt; lia).
  apply banner_prefix_no_overlap in E as (v & -> & E); [|done].
  apply app_eq_inv in E as [(k & -> & _)|(k & -> & E)].
  - (* the date span runs over the start of the old banner *)
    exists (v ++ banner_prefix ++ d), a. split_and!.
    + by rewrite <- !app_assoc.
    + by destruct v.
    + apply Forall_app in Hdot' as [Hv _].
      repeat (apply Forall_app; split); [done | apply banner_prefix_dot | done].
  - (* the suffix lies before the old banner *)
    apply banner_suffix_no_overlap in E as (k' & -> & _).
    exists d', (k' ++ banner_prefix ++ d ++ banner_suffix ++ a).
    split_and!; [by rewrite <- !app_assoc | done..].
Qed.
End banner_again.

(** X12.  Updating the banner twice with the same date gives what updating
    it once gives, for a date that is not empty and holds no line
    terminator, no dollar sign and no full stop (as a date of the form
    YYYY-MM-DD does). *)
Theorem updateTimestamp_idempotent content date :
  date ≠ [] → Forall (λ c, is_dot c = true) date →
  DOLLAR ∉ date → 46%N ∉ date →
  updateTimestamp (updateTimestamp content date) date = updateTimestamp content date.
Proof.
  intros Hne Hdot Hdollar Hstop.
  destruct (updateTimestamp_cases content date Hdollar)
    as [[Hsame _]|(b & d & a & Hm & Hmin & Hupd)]; [by rewrite !Hsame|].
  rewrite Hupd.
  assert (banner_match (b ++ banner_prefix ++ date ++ banner_suffix ++ a) b date a)
    as Hm' by done.
  destruct (updateTimestamp_cases
              (b ++ banner_prefix ++ date ++ banner_suffix ++ a) date Hdollar)
    as [[_ Hno]|(b' & d' & a' & Hm2 & Hmin2 & ->)]; [by destruct (Hno _ _ _ Hm')|].
  destruct (Hmin2 _ _ _ Hm') as [Hlt|[Hlen Hlen']].
  - exfalso. destruct Hm as (Ec & Hd & Hdotd).
    destruct (no_banner_before b d a date b' d' a' Hd Hdotd Hm2 Hlt) as (d'' & a'' & Hm3).
    rewrite <- Ec in Hm3. destruct (Hmin _ _ _ Hm3) as [?|[? _]]; lia.
  - destruct Hm2 as (E & Hd' & Hdot').
    apply app_inj_1 in E as [<- E]; [|done].
    apply app_inv_head in E.
    assert (a' = a) as ->; [|done].
    apply app_eq_inv in E as [(k & Hk & E)|(k & Hk & E)].
    + destruct k as [|g k].
      * rewrite app_nil_l in E. by apply app_inv_head in E.
      * exfalso. apply Hstop. rewrite Hk. apply elem_of_app. right.
        assert (g = 46%N) as -> by (by injection E as <-). left.
    + assert (k = []) as ->.
      { apply (f_equal length) in Hk. rewrite length_app in Hk.
        destruct k; [done | simpl in Hk; lia]. }
      rewrite app_nil_l in E. by apply app_inv_head in E.
Qed.

Lemma updateTimestamp_idempotent_witness :
  updateTimestamp (updateTimestamp banner_2025 (u16 "2026-01-01")) (u16 "2026-01-01")
  = updateTimestamp banner_2025 (u16 "2026-01-01").
Proof.
  apply updateTimestamp_idempotent.
  - done.
  - apply forallb_is_dot. by vm_compute.
  - intros Hin. apply list_elem_of_In in Hin. vm_compute in Hin.
    repeat destruct Hin as [Hin|Hin]; try discriminate Hin; done.
  - intros Hin. apply list_elem_of_In in Hin. vm_compute in Hin.
    repeat destruct Hin as [Hin|Hin]; try discriminate Hin; done.
Defined.
